(** * A backtracking SAT solver with unit propagation

    Shallow embedding of [boolean_sat_solver.py]: the propagator
    [simplify_with_unit_clauses] and the search [satisfying_assignment]
    with its nested helper [try_assignment].

    Python dictionaries are finite maps ([gmap]); lists are lists.  The
    dictionary that the propagator mutates in place is threaded through the
    pure model as an extra result; the second part of the file
    ([Module Heap]) models the Python object store itself, with references
    and aliasing, to reason about which objects a call may mutate.

    The interpreter's call stack is idealised as unbounded: recursion depth
    is an explicit fuel parameter and a theorem gives the fuel that is
    always enough.  Clauses hold pairs of a variable name and a boolean, as
    the docstrings have them. *)

From Stdlib Require Import Factorial.
From stdpp Require Import gmap strings list fin_maps fin_sets.

Set Warnings "-clear-no-such-hyp".

Open Scope string_scope.
Open Scope list_scope.
Open Scope nat_scope.

(** ** Data model *)

Definition Var := string.
Definition Literal := (Var * bool)%type.
Definition Clause := list Literal.
Definition Formula := list Clause.
Abbreviation assignment := (gmap string bool).

(** Exceptions the modelled code can raise. *)
Inductive exn := IndexError | TypeError.

(** Outcome of a call: a value, an uncaught exception, or the fuel of the
    model ran out before the call finished. *)
Inductive outcome (T : Type) :=
| Returned (x : T)
| Raised (e : exn)
| OutOfFuel.
Arguments Returned {T} x.
Arguments Raised {T} e.
Arguments OutOfFuel {T}.

(** ** The propagator (lines 29-60) *)

(** The inner [for variable, value in clause] loop (lines 35-46).
    [None] is the [break] of line 40: the [else] branch of the loop is
    skipped and the clause is dropped.  [Some sc] is the loop running to
    completion with [simplified_clause = sc]. *)
Fixpoint scan_clause (cl : Clause) (assignments : assignment)
    (simplified_clause : Clause) : option Clause :=
  match cl with
  | [] => Some simplified_clause
  | (variable, value) :: rest =>
      match assignments !! variable with
      | Some stored =>
          if Bool.eqb stored value then None
          else scan_clause rest assignments simplified_clause
      | None =>
          scan_clause rest assignments (simplified_clause ++ [(variable, value)])
      end
  end.

(** The outer [for clause in formula] loop (lines 32-58), with the three
    pieces of state it updates.  [None] is the [return None] of line 49. *)
Fixpoint simplify_loop (formula : Formula) (simplified_formula : Formula)
    (exists_unit_clause : bool) (assignments : assignment)
    : option (Formula * bool * assignment) :=
  match formula with
  | [] => Some (simplified_formula, exists_unit_clause, assignments)
  | clause :: rest =>
      match scan_clause clause assignments [] with
      | None => simplify_loop rest simplified_formula exists_unit_clause assignments
      | Some [] => None
      | Some [(clause_var, clause_val)] =>
          simplify_loop rest simplified_formula true
            (<[clause_var := clause_val]> assignments)
      | Some simplified_clause =>
          simplify_loop rest (simplified_formula ++ [simplified_clause])
            exists_unit_clause assignments
      end
  end.

(** [simplify_with_unit_clauses formula assignments]: [None] for the
    Python [None]; otherwise the returned pair together with the
    dictionary [assignments] as the call leaves it. *)
Definition simplify_with_unit_clauses (formula : Formula)
    (assignments : assignment) : option (Formula * bool * assignment) :=
  simplify_loop formula [] false assignments.

(** ** The search (lines 63-122) *)

(** Result of the [while exists_unit_clause] loop of [try_assignment]. *)
Inductive loop_result :=
| LoopDone (simplified_formula : Formula) (temp_assignment : assignment)
| LoopContradiction
| LoopOutOfFuel.

(** Lines 97-102.  The loop body runs at least once, since
    [exists_unit_clause] starts as [True]; unpacking a [None] result raises
    the [TypeError] that line 100 catches. *)
Fixpoint unit_loop (iters : nat) (simplified_formula : Formula)
    (temp_assignment : assignment) : loop_result :=
  match iters with
  | O => LoopOutOfFuel
  | S iters' =>
      match simplify_with_unit_clauses simplified_formula temp_assignment with
      | None => LoopContradiction
      | Some (simplified_formula', true, temp_assignment') =>
          unit_loop iters' simplified_formula' temp_assignment'
      | Some (simplified_formula', false, temp_assignment') =>
          LoopDone simplified_formula' temp_assignment'
      end
  end.

(** [dict.update]: the bindings of [other] win. *)
Definition dict_update (d other : assignment) : assignment := other ∪ d.

(** [try_assignment] (lines 84-110); [recurse] is the recursive call to
    [satisfying_assignment] of line 104. *)
Definition try_assignment (recurse : Formula → outcome (option assignment))
    (iters : nat) (formula : Formula) (temp_assignment : assignment)
    : outcome (option assignment) :=
  match unit_loop iters formula temp_assignment with
  | LoopOutOfFuel => OutOfFuel
  | LoopContradiction => Returned None
  | LoopDone simplified_formula temp_assignment' =>
      match recurse simplified_formula with
      | Returned (Some assignment) =>
          Returned (Some (dict_update assignment temp_assignment'))
      | Returned None => Returned None
      | Raised e => Raised e
      | OutOfFuel => OutOfFuel
      end
  end.

(** The [for val in [value, not value]] loop (lines 113-122). *)
Fixpoint try_polarities (try : assignment → outcome (option assignment))
    (variable : Var) (vals : list bool) : outcome (option assignment) :=
  match vals with
  | [] => Returned None
  | val :: vals' =>
      match try {[variable := val]} with
      | Returned None => try_polarities try variable vals'
      | other => other
      end
  end.

(** [satisfying_assignment] with [depth] bounding the nesting of recursive
    calls and [iters] the iterations of each [while] loop. *)
Fixpoint satisfying_assignment_fuel (depth iters : nat) (formula : Formula)
    : outcome (option assignment) :=
  match depth with
  | O => OutOfFuel
  | S depth' =>
      match formula with
      | [] => Returned (Some ∅)
      | [] :: _ => Raised IndexError
      | ((variable, value) :: _) :: _ =>
          try_polarities
            (try_assignment (satisfying_assignment_fuel depth' iters) iters formula)
            variable [value; negb value]
      end
  end.

(** Variables occurring in a clause and in a formula. *)
Definition clause_vars (cl : Clause) : gset string := list_to_set (cl.*1).
Definition formula_vars (F : Formula) : gset string := ⋃ (clause_vars <$> F).
Definition num_vars (F : Formula) : nat := size (formula_vars F).

(** The solver, with the fuel that is always enough (see
    [satisfying_assignment_fuel_enough]). *)
Definition satisfying_assignment (formula : Formula) : outcome (option assignment) :=
  satisfying_assignment_fuel (S (num_vars formula)) (S (num_vars formula)) formula.

(** ** Semantics of formulas *)

(** A literal [(v, b)] matches a dictionary when the dictionary maps [v] to [b]. *)
Definition clause_satisfied (A : assignment) (cl : Clause) : Prop :=
  ∃ v b, (v, b) ∈ cl ∧ A !! v = Some b.
Definition satisfies (A : assignment) (F : Formula) : Prop :=
  ∀ cl, cl ∈ F → clause_satisfied A cl.

(** Total assignments. *)
Definition total_satisfies (σ : Var → bool) (F : Formula) : Prop :=
  ∀ cl, cl ∈ F → ∃ v b, (v, b) ∈ cl ∧ σ v = b.

(** ** The propagator as the specification words it

    A second definition of one propagation pass, clause by clause, to be
    compared with the loop above. *)

(** The stored value of the literal's variable equals its polarity. *)
Definition lit_matches (A : assignment) (l : Literal) : Prop := A !! l.1 = Some l.2.
(** The literal's variable is assigned, with the other value. *)
Definition lit_falsified (A : assignment) (l : Literal) : Prop :=
  A !! l.1 = Some (negb l.2).
#[global] Instance lit_matches_dec A l : Decision (lit_matches A l).
Proof. unfold lit_matches. apply _. Defined.
#[global] Instance lit_falsified_dec A l : Decision (lit_falsified A l).
Proof. unfold lit_falsified. apply _. Defined.

(** The literals of a clause that are left once the non-matching ones are
    omitted. *)
Definition remaining (A : assignment) (cl : Clause) : Clause :=
  filter (λ l, ¬ lit_falsified A l) cl.


Fixpoint propagate_spec (F : Formula) (A : assignment)
    : option (Formula * bool * assignment) :=
  match F with
  | [] => Some ([], false, A)
  | cl :: rest =>
      if decide (Exists (lit_matches A) cl) then
        (* satisfied: the clause is dropped *)
        propagate_spec rest A
      else
        match remaining A cl with
        | [] => None                                   (* CONTRADICTION *)
        | [(v, b)] =>                                  (* unit clause *)
            match propagate_spec rest (<[v := b]> A) with
            | Some (F', _, A') => Some (F', true, A')
            | None => None
            end
        | rem =>                                       (* two or more literals *)
            match propagate_spec rest A with
            | Some (F', u, A') => Some (rem :: F', u, A')
            | None => None
            end
        end
  end.

(** ** Relations and measures used in the proofs

    One pass as a relation.

    [pass F A F' u A']: a pass over [F] that starts with the dictionary [A]
    returns [(F', u)] and leaves the dictionary as [A']. *)

Inductive pass : Formula → assignment → Formula → bool → assignment → Prop :=
| pass_nil A : pass [] A [] false A
| pass_satisfied cl rest A F' u A' :
    Exists (lit_matches A) cl →
    pass rest A F' u A' →
    pass (cl :: rest) A F' u A'
| pass_unit cl rest A v b F' u A' :
    ¬ Exists (lit_matches A) cl →
    remaining A cl = [(v, b)] →
    pass rest (<[v := b]> A) F' u A' →
    pass (cl :: rest) A F' true A'
| pass_keep cl rest A F' u A' :
    ¬ Exists (lit_matches A) cl →
    2 ≤ length (remaining A cl) →
    pass rest A F' u A' →
    pass (cl :: rest) A (remaining A cl :: F') u A'.

(** A total assignment agrees with a dictionary when it extends it. *)
Definition agrees (σ : Var → bool) (A : assignment) : Prop :=
  ∀ v b, A !! v = Some b → σ v = b.

(** What holds when the loop ends normally. *)
Record loop_post (F : Formula) (A : assignment) (F' : Formula) (A' : assignment)
    : Prop := {
  lp_subseteq : A ⊆ A';
  lp_dom : dom A' ⊆ dom A ∪ formula_vars F;
  lp_vars : formula_vars F' ⊆ formula_vars F ∖ dom A';
  lp_length : ∀ cl', cl' ∈ F' → 2 ≤ length cl';
  lp_sound : ∀ cl, cl ∈ F → clause_satisfied A' cl ∨ ∃ cl', cl' ∈ F' ∧ cl' ⊆ cl;
}.

(** The number of unassigned variables of the formula bounds the loop. *)
Definition unassigned_vars (F : Formula) (A : assignment) : nat :=
  size (formula_vars F ∖ dom A).

(** The formula of the docstring examples. *)
Definition doctest_cnf : Formula :=
  [[("a", true); ("b", true); ("c", true)]; [("a", false); ("f", true)];
   [("d", false); ("e", true); ("a", true); ("g", true)];
   [("h", false); ("c", true); ("a", false); ("f", true)]].

(** * The object store

    Python lists and dictionaries are mutable objects that the program
    holds by reference.  This part models the object store, to state which
    objects a call may change.

    An operation applied to an object of the wrong kind raises
    [TypeError].  A [for] loop takes the items of its list when it starts:
    no step of either loop writes to the list it iterates over, so this is
    what Python's index-based iterator yields.  The [print] of line 101 is
    not modelled. *)

Module Store.

Abbreviation loc := nat.

(** What a list can hold here: a reference to another object, or a
    literal, which is an immutable tuple. *)
Inductive val := VRef (l : loc) | VTuple (variable : Var) (value : bool).

Inductive obj := OList (items : list val) | ODict (d : assignment).

Abbreviation store := (gmap nat obj).

(** Computations on the store: an outcome and the store as the
    computation leaves it, also when an exception is raised. *)
Definition M (T : Type) : Type := store → outcome T * store.

#[global] Instance M_ret : MRet M := λ T x h, (Returned x, h).
#[global] Instance M_bind : MBind M := λ T U k m h,
  match m h with
  | (Returned x, h') => k x h'
  | (Raised e, h') => (Raised e, h')
  | (OutOfFuel, h') => (OutOfFuel, h')
  end.

Definition raise {T} (e : exn) : M T := λ h, (Raised e, h).
Definition out_of_fuel {T} : M T := λ h, (OutOfFuel, h).

(** [try: m except TypeError: ...]: [None] when the handler is taken. *)
Definition catch_TypeError {T} (m : M T) : M (option T) := λ h,
  match m h with
  | (Returned x, h') => (Returned (Some x), h')
  | (Raised TypeError, h') => (Returned None, h')
  | (Raised e, h') => (Raised e, h')
  | (OutOfFuel, h') => (OutOfFuel, h')
  end.

(** A new object, at an address not in use. *)
Definition alloc (o : obj) : M loc := λ h,
  let l := fresh (dom h) in (Returned l, <[l := o]> h).

Definition read_list (l : loc) : M (list val) := λ h,
  match h !! l with
  | Some (OList items) => (Returned items, h)
  | _ => (Raised TypeError, h)
  end.

Definition read_dict (l : loc) : M assignment := λ h,
  match h !! l with
  | Some (ODict d) => (Returned d, h)
  | _ => (Raised TypeError, h)
  end.

(** [l.append(x)] *)
Definition list_append (l : loc) (x : val) : M unit := λ h,
  match h !! l with
  | Some (OList items) => (Returned (), <[l := OList (items ++ [x])]> h)
  | _ => (Raised TypeError, h)
  end.

(** [d[k] = b] *)
Definition dict_setitem (l : loc) (k : Var) (b : bool) : M unit := λ h,
  match h !! l with
  | Some (ODict d) => (Returned (), <[l := ODict (<[k := b]> d)]> h)
  | _ => (Raised TypeError, h)
  end.

(** [d.update(other)] *)
Definition dict_update_obj (l other : loc) : M unit := λ h,
  match h !! l, h !! other with
  | Some (ODict d), Some (ODict o) => (Returned (), <[l := ODict (dict_update d o)]> h)
  | _, _ => (Raised TypeError, h)
  end.

End Store.
Export Store.

(** ** The solver on the object store *)

Module Heap.

(** Lines 35-46, over the items of the clause.  [true]: the loop ran to
    its end; [false]: it was left by [break]. *)
Fixpoint scan_items (items : list val) (assignments simplified_clause : loc)
    : M bool :=
  match items with
  | [] => mret true
  | VTuple variable value :: rest =>
      d ← read_dict assignments;
      match d !! variable with
      | Some stored =>
          if Bool.eqb stored value then mret false
          else scan_items rest assignments simplified_clause
      | None =>
          list_append simplified_clause (VTuple variable value);;
          scan_items rest assignments simplified_clause
      end
  | VRef _ :: _ => raise TypeError
  end.

(** Lines 32-58, over the items of the formula.  [None]: line 49
    returned [None]; [Some u]: the loop ended with the flag [u]. *)
Fixpoint simplify_items (items : list val)
    (assignments simplified_formula : loc) (exists_unit_clause : bool)
    : M (option bool) :=
  match items with
  | [] => mret (Some exists_unit_clause)
  | VRef clause :: rest =>
      simplified_clause ← alloc (OList []);
      lits ← read_list clause;
      completed ← scan_items lits assignments simplified_clause;
      if completed : bool then
        sc ← read_list simplified_clause;
        match sc with
        | [] => mret None
        | [VTuple clause_var clause_val] =>
            dict_setitem assignments clause_var clause_val;;
            simplify_items rest assignments simplified_formula true
        | [VRef _] => raise TypeError
        | _ =>
            list_append simplified_formula (VRef simplified_clause);;
            simplify_items rest assignments simplified_formula exists_unit_clause
        end
      else simplify_items rest assignments simplified_formula exists_unit_clause
  | VTuple _ _ :: _ => raise TypeError
  end.

(** Lines 29-60.  [None] is Python's [None]; [Some (sf, u)] the tuple of a
    reference to the new list and the flag. *)
Definition simplify_with_unit_clauses (formula assignments : loc)
    : M (option (loc * bool)) :=
  simplified_formula ← alloc (OList []);
  items ← read_list formula;
  r ← simplify_items items assignments simplified_formula false;
  mret ((λ u, (simplified_formula, u)) <$> r).

(** Unpacking the result of line 99 into two names. *)
Definition unpack_pair {T} (r : option T) : M T :=
  match r with Some p => mret p | None => raise TypeError end.

(** Lines 97-102.  [None]: the handler of line 100 returned [None]. *)
Fixpoint unit_loop (iters : nat) (simplified_formula temp_assignment : loc)
    : M (option loc) :=
  match iters with
  | O => out_of_fuel
  | S iters' =>
      r ← catch_TypeError
             (simplify_with_unit_clauses simplified_formula temp_assignment
                ≫= unpack_pair);
      match r with
      | None => mret None
      | Some (simplified_formula', true) =>
          unit_loop iters' simplified_formula' temp_assignment
      | Some (simplified_formula', false) => mret (Some simplified_formula')
      end
  end.

(** Lines 84-110. *)
Definition try_assignment (recurse : loc → M (option loc)) (iters : nat)
    (formula temp_assignment : loc) : M (option loc) :=
  items ← read_list formula;
  simplified_formula ← alloc (OList items);            (* formula.copy() *)
  r ← unit_loop iters simplified_formula temp_assignment;
  match r with
  | None => mret None
  | Some simplified_formula' =>
      a ← recurse simplified_formula';
      match a with
      | Some assignment =>
          dict_update_obj assignment temp_assignment;;
          mret (Some assignment)
      | None => mret None
      end
  end.

(** Lines 113-122. *)
Fixpoint try_polarities (try : loc → M (option loc)) (variable : Var)
    (vals : list bool) : M (option loc) :=
  match vals with
  | [] => mret None
  | val :: vals' =>
      temp ← alloc (ODict {[variable := val]});
      a ← try temp;
      match a with
      | None => try_polarities try variable vals'
      | Some assignment => mret (Some assignment)
      end
  end.

(** Lines 75-122. *)
Fixpoint satisfying_assignment (depth iters : nat) (formula : loc)
    : M (option loc) :=
  match depth with
  | O => out_of_fuel
  | S depth' =>
      items ← read_list formula;
      match items with
      | [] => a ← alloc (ODict ∅); mret (Some a)
      | VTuple _ _ :: _ => raise TypeError
      | VRef clause :: _ =>
          lits ← read_list clause;
          match lits with
          | [] => raise IndexError
          | VRef _ :: _ => raise TypeError
          | VTuple variable value :: _ =>
              try_polarities
                (try_assignment (satisfying_assignment depth' iters) iters formula)
                variable [value; negb value]
          end
      end
  end.


End Heap.

(** ** Which objects a computation may change

    [framed D X m Q]: started in a store that holds the objects [D], the
    computation [m] keeps all of them in the store and leaves those outside
    [X] as they were, whatever the outcome; a value it returns satisfies
    [Q]. *)
Definition framed {T} (D X : gset loc) (m : M T) (Q : T → Prop) : Prop :=
  ∀ h r h', D ⊆ dom h → m h = (r, h') →
    D ⊆ dom h' ∧ (∀ l, l ∈ D → l ∉ X → h' !! l = h !! l) ∧
    ∀ x, r = Returned x → Q x.

(** Writing to [l] is allowed: [l] is in [X] or is a new object. *)
Definition writable (D X : gset loc) (l : loc) : Prop := l ∈ X ∨ l ∉ D.

(** A returned reference is to a new object. *)
Definition fresh_result (D : gset loc) (r : option loc) : Prop :=
  ∀ a, r = Some a → a ∉ D.

(** An [assignments] dictionary and a formula with its clauses, laid out
    in a store: the running example of the docstring. *)
Definition doctest_store : store :=
  {[ 0 := OList [VRef 1; VRef 2; VRef 3; VRef 4];
     1 := OList [VTuple "a" true; VTuple "b" true; VTuple "c" true];
     2 := OList [VTuple "a" false; VTuple "f" true];
     3 := OList [VTuple "d" false; VTuple "e" true; VTuple "a" true; VTuple "g" true];
     4 := OList [VTuple "h" false; VTuple "c" true; VTuple "a" false; VTuple "f" true];
     5 := ODict {["a" := true]} ]}.


(** ** The pure model seen from the store *)

Definition lit_val (l : Literal) : val := VTuple l.1 l.2.

(** The object at [c] is a list of the literals of [cl]. *)
Definition is_clause (h : store) (c : loc) (cl : Clause) : Prop :=
  h !! c = Some (OList (lit_val <$> cl)).

(** The object at [f] is a list of references to the clauses of [F]. *)
Definition is_formula (h : store) (f : loc) (F : Formula) : Prop :=
  ∃ cs, h !! f = Some (OList (VRef <$> cs)) ∧ Forall2 (is_clause h) cs F.

Definition is_dict (h : store) (a : loc) (A : assignment) : Prop :=
  h !! a = Some (ODict A).

(** List objects are never changed by what follows. *)
Definition lists_preserved (h h' : store) : Prop :=
  ∀ l items, h !! l = Some (OList items) → h' !! l = Some (OList items).

(** How the outcome of the store model matches that of the pure one. *)
Definition sim_outcome (out : outcome (option assignment))
    (r : outcome (option loc)) (h' : store) : Prop :=
  match out with
  | Returned (Some A) => ∃ a, r = Returned (Some a) ∧ is_dict h' a A
  | Returned None => r = Returned None
  | Raised e => r = Raised e
  | OutOfFuel => r = OutOfFuel
  end.

(** * The scheduling encoder (lines 125-209)

    A Python dictionary iterated in key order is the list of its items, in
    insertion order, with distinct keys; [for k in d.keys(): ... d[k]] visits
    the items.  A set is the list of its elements in iteration order.
    Capacities are Python integers. *)

(** [student + "_" + session] *)
Definition var_name (student session : string) : Var :=
  (student +:+ "_") +:+ session.

(** [get_combos] (lines 138-151).  [prev] is never mutated: the loop
    works on a copy.  The inner function is the [for] loop with its
    accumulator [combos]. *)
Fixpoint get_combos {A} (elts : list A) (length : Z) (prev : list A)
    {struct elts} : list (list A) :=
  if bool_decide (Z.of_nat (Datatypes.length prev) = length) then [prev]
  else
    (fix loop (elts' : list A) (combos : list (list A)) {struct elts'} :=
       match elts' with
       | [] => combos
       | val :: rest =>
           let prev_copy := prev ++ [val] in
           loop rest (combos ++ get_combos rest length prev_copy)
       end) elts [].

(** [get_preferences] (lines 125-136). *)
Fixpoint get_preferences_sessions (student : string) (sessions : list string)
    (student_pref : Clause) : Clause :=
  match sessions with
  | [] => student_pref
  | session :: rest =>
      get_preferences_sessions student rest
        (student_pref ++ [(var_name student session, true)])
  end.

Fixpoint get_preferences_loop (items : list (string * list string))
    (all_pref : Formula) : Formula :=
  match items with
  | [] => all_pref
  | (student, sessions) :: rest =>
      get_preferences_loop rest
        (all_pref ++ [get_preferences_sessions student sessions []])
  end.

Definition get_preferences (student_preferences : list (string * list string))
    : Formula :=
  get_preferences_loop student_preferences [].

(** [get_max_one_session] (lines 154-168). *)
Fixpoint max_one_combos (student : string) (sess_combos : list (list string))
    (max_one : Formula) : Formula :=
  match sess_combos with
  | [] => max_one
  | sess_combo :: rest =>
      max_one_combos student rest
        (max_one ++ [(λ session, (var_name student session, false)) <$> sess_combo])
  end.

Fixpoint max_one_students (students : list string)
    (sess_combos : list (list string)) (max_one : Formula) : Formula :=
  match students with
  | [] => max_one
  | student :: rest =>
      max_one_students rest sess_combos (max_one_combos student sess_combos max_one)
  end.

Definition get_max_one_session (student_preferences : list (string * list string))
    (room_capacities : list (string * Z)) : Formula :=
  let students := student_preferences.*1 in
  let sessions := room_capacities.*1 in
  let sess_combos := get_combos sessions 2 [] in
  max_one_students students sess_combos [].

(** [get_oversubscribed] (lines 171-192). *)
Fixpoint oversubscribed_combos (session : string)
    (student_combos : list (list string)) (temp_oversubscribed : Formula)
    : Formula :=
  match student_combos with
  | [] => temp_oversubscribed
  | combo :: rest =>
      oversubscribed_combos session rest
        (temp_oversubscribed
           ++ [(λ student, (var_name student session, false)) <$> combo])
  end.

Fixpoint oversubscribed_sessions (students : list string)
    (items : list (string * Z)) (oversubscribed : Formula) : Formula :=
  match items with
  | [] => oversubscribed
  | (session, capacity) :: rest =>
      if bool_decide (Z.of_nat (length students) > capacity)%Z then
        let student_combos := get_combos students (capacity + 1) [] in
        oversubscribed_sessions students rest
          (oversubscribed ++ oversubscribed_combos session student_combos [])
      else oversubscribed_sessions students rest oversubscribed
  end.

Definition get_oversubscribed (student_preferences : list (string * list string))
    (room_capacities : list (string * Z)) : Formula :=
  let students := student_preferences.*1 in
  oversubscribed_sessions students room_capacities [].

(** [boolify_scheduling_problem] (lines 194-209). *)
Definition boolify_scheduling_problem
    (student_preferences : list (string * list string))
    (room_capacities : list (string * Z)) : Formula :=
  (get_preferences student_preferences
   ++ get_max_one_session student_preferences room_capacities)
  ++ get_oversubscribed student_preferences room_capacities.


(** The sublists of a given length, first those that start with the head:
    what [get_combos] is meant to enumerate. *)
Fixpoint sublists_of_length {A} (k : nat) (l : list A) : list (list A) :=
  match k, l with
  | O, _ => [[]]
  | S _, [] => []
  | S k', x :: xs =>
      ((x ::.) <$> sublists_of_length k' xs) ++ sublists_of_length k xs
  end.

(** The loop of [get_combos] on its own. *)
Definition combos_loop {A} (length : Z) (prev : list A)
    : list A → list (list A) → list (list A) :=
  fix loop (elts' : list A) (combos : list (list A)) {struct elts'} :=
    match elts' with
    | [] => combos
    | val :: rest => loop rest (combos ++ get_combos rest length (prev ++ [val]))
    end.

(** What [get_combos] returns, in terms of [sublists_of_length]. *)
Definition combos_spec {A} (elts : list A) (k : Z) (prev : list A)
    : list (list A) :=
  if decide (Z.of_nat (length prev) ≤ k)%Z
  then (prev ++.) <$> sublists_of_length (Z.to_nat (k - Z.of_nat (length prev))) elts
  else [].

(** Schedules.  [sched student session] says whether the student sits in
    the session. *)
Definition occupancy (sched : string → string → bool) (students : list string)
    (session : string) : nat :=
  length (filter (λ student, sched student session = true) students).

Record valid_schedule (student_preferences : list (string * list string))
    (room_capacities : list (string * Z)) (sched : string → string → bool)
    : Prop := {
  vs_desired : ∀ student sessions,
    (student, sessions) ∈ student_preferences →
    ∃ session, session ∈ sessions ∧ sched student session = true;
  vs_at_most_one : ∀ student session1 session2,
    student ∈ student_preferences.*1 →
    session1 ∈ room_capacities.*1 → session2 ∈ room_capacities.*1 →
    session1 ≠ session2 →
    ¬ (sched student session1 = true ∧ sched student session2 = true);
  vs_capacity : ∀ session capacity,
    (session, capacity) ∈ room_capacities →
    (Z.of_nat (occupancy sched student_preferences.*1 session) ≤ capacity)%Z;
}.

(** The schedule that an assignment of the variables describes. *)
Definition schedule_of (σ : Var → bool) : string → string → bool :=
  λ student session, σ (var_name student session).

(** The total assignment that a returned dictionary stands for: variables
    without a binding count as [False]. *)
Definition completion (A : assignment) : Var → bool :=
  λ v, default false (A !! v).

(** The character of the separator ["_"]. *)
Definition underscore : Ascii.ascii :=
  Ascii.Ascii true true true true true false true false.

(** Names without an underscore, and the split of a variable name at its
    first underscore. *)
Fixpoint no_underscore (s : string) : bool :=
  match s with
  | EmptyString => true
  | String c rest => if Ascii.eqb c underscore then false else no_underscore rest
  end.

Fixpoint split_name (v : string) : option (string * string) :=
  match v with
  | EmptyString => None
  | String c rest =>
      if Ascii.eqb c underscore then Some (EmptyString, rest)
      else (λ p, (String c p.1, p.2)) <$> split_name rest
  end.

(** The clauses the three rules are made of. *)
Definition preference_clause (item : string * list string) : Clause :=
  (λ session, (var_name item.1 session, true)) <$> item.2.
Definition forbid_sessions (student : string) (combo : list string) : Clause :=
  (λ session, (var_name student session, false)) <$> combo.
Definition forbid_students (session : string) (combo : list string) : Clause :=
  (λ student, (var_name student session, false)) <$> combo.

(** The clauses one room contributes. *)
Definition room_clauses (students : list string) (item : string * Z) : Formula :=
  if bool_decide (Z.of_nat (length students) > item.2)%Z then
    forbid_students item.1 <$> get_combos students (item.2 + 1) []
  else [].


(** * Properties *)

(** ** Examples from the docstrings *)

Example doctest_simplify_1 :
  simplify_with_unit_clauses doctest_cnf {["a" := true]}
  = Some ([], true, {["a" := true; "f" := true]}).
Proof. vm_compute. reflexivity. Qed.

Example doctest_simplify_2 :
  simplify_with_unit_clauses doctest_cnf {["a" := false]}
  = Some ([[("b", true); ("c", true)]; [("d", false); ("e", true); ("g", true)]],
          false, {["a" := false]}).
Proof. vm_compute. reflexivity. Qed.

Example doctest_simplify_3 :
  simplify_with_unit_clauses doctest_cnf {["a" := true; "f" := true]}
  = Some ([], false, {["a" := true; "f" := true]}).
Proof. vm_compute. reflexivity. Qed.

Example doctest_simplify_4 :
  simplify_with_unit_clauses doctest_cnf {["a" := true; "f" := false]} = None.
Proof. vm_compute. reflexivity. Qed.

Example doctest_solve_empty : satisfying_assignment [] = Returned (Some ∅).
Proof. reflexivity. Qed.

Example doctest_solve_clash :
  satisfying_assignment [[("a", true)]; [("a", false)]] = Returned None.
Proof. vm_compute. reflexivity. Qed.

Example doctest_solve_one_clause :
  satisfying_assignment [[("a", true); ("b", false); ("c", true)]]
  = Returned (Some {["a" := true]}).
Proof. vm_compute. reflexivity. Qed.

(** ** The clause scan *)

Lemma scan_clause_None cl A acc :
  scan_clause cl A acc = None ↔ Exists (lit_matches A) cl.
Proof.
  revert acc. induction cl as [|[v b] cl IH]; intros acc; simpl.
  - split; [done | by intros ?%Exists_nil].
  - rewrite Exists_cons. unfold lit_matches at 1. simpl.
    destruct (A !! v) as [s|] eqn:Hv.
    + destruct (Bool.eqb s b) eqn:Hsb.
      * apply Bool.eqb_prop in Hsb as ->. naive_solver.
      * rewrite IH. apply Bool.eqb_false_iff in Hsb. naive_solver.
    + rewrite IH. naive_solver.
Qed.

Lemma remaining_cons A l cl :
  remaining A (l :: cl) =
  if decide (¬ lit_falsified A l) then l :: remaining A cl else remaining A cl.
Proof. reflexivity. Qed.

Lemma scan_clause_Some cl A acc sc :
  scan_clause cl A acc = Some sc → sc = acc ++ remaining A cl.
Proof.
  revert acc. induction cl as [|[v b] cl IH]; intros acc; simpl.
  - intros [= <-]. by rewrite app_nil_r.
  - destruct (A !! v) as [s|] eqn:Hv.
    + destruct (Bool.eqb s b) eqn:Hsb; [done|].
      apply Bool.eqb_false_iff in Hsb.
      intros ->%IH. rewrite remaining_cons, decide_False; [done|].
      intros Hn. apply Hn. unfold lit_falsified. simpl. rewrite Hv.
      f_equal. by destruct s, b.
    + intros ->%IH. rewrite remaining_cons, decide_True.
      * by rewrite <- app_assoc.
      * unfold lit_falsified. simpl. by rewrite Hv.
Qed.

(** When no literal matches, the remaining literals are exactly the
    unassigned ones. *)
Lemma remaining_unassigned A cl l :
  ¬ Exists (lit_matches A) cl → l ∈ remaining A cl → l ∈ cl ∧ A !! l.1 = None.
Proof.
  intros Hno [Hnf Hl]%list_elem_of_filter. split; [done|].
  destruct (A !! l.1) as [s|] eqn:Hs; [|done].
  exfalso. destruct (decide (s = l.2)) as [->|Hne].
  - apply Hno, Exists_exists. by exists l.
  - apply Hnf. unfold lit_falsified. rewrite Hs. f_equal. by destruct s, (l.2).
Qed.

Lemma remaining_subseteq A cl : remaining A cl ⊆ cl.
Proof. intros l [_ ?]%list_elem_of_filter. done. Qed.

(** ** One pass: the loop computes what the specification describes *)

Lemma simplify_loop_spec F acc u A :
  simplify_loop F acc u A =
  (λ '(F', u', A'), (acc ++ F', u || u', A')) <$> propagate_spec F A.
Proof.
  revert acc u A. induction F as [|cl F IH]; intros acc u A; simpl.
  - by rewrite app_nil_r, orb_false_r.
  - destruct (scan_clause cl A []) as [sc|] eqn:Hscan.
    + assert (¬ Exists (lit_matches A) cl) as Hno.
      { intros ?%(scan_clause_None _ _ []). congruence. }
      rewrite decide_False by done.
      apply scan_clause_Some in Hscan. simpl in Hscan. subst sc.
      destruct (remaining A cl) as [|[v b] [|l2 rem]]; [done|..].
      * rewrite IH. destruct (propagate_spec F _) as [[[F' u'] A']|]; simpl; [|done].
        by rewrite orb_true_r.
      * rewrite IH. destruct (propagate_spec F _) as [[[F' u'] A']|]; simpl; [|done].
        by rewrite <- app_assoc.
    + apply scan_clause_None in Hscan. rewrite decide_True by done. apply IH.
Qed.

Lemma simplify_propagate_spec F A :
  simplify_with_unit_clauses F A = propagate_spec F A.
Proof.
  unfold simplify_with_unit_clauses. rewrite simplify_loop_spec.
  by destruct (propagate_spec F A) as [[[F' u'] A']|].
Qed.

Lemma propagate_spec_pass F A F' u A' :
  propagate_spec F A = Some (F', u, A') → pass F A F' u A'.
Proof.
  revert A F' u A'. induction F as [|cl F IH]; intros A F' u A'; simpl.
  - intros [= <- <- <-]. constructor.
  - destruct (decide (Exists (lit_matches A) cl)) as [Hm|Hm].
    + intros H. by apply pass_satisfied, IH.
    + destruct (remaining A cl) as [|[v b] [|l2 rem]] eqn:Hrem; [done|..].
      * destruct (propagate_spec F _) as [[[F1 u1] A1]|] eqn:Hrest; [|done].
        intros [= <- <- <-]. eapply pass_unit; eauto.
      * destruct (propagate_spec F _) as [[[F1 u1] A1]|] eqn:Hrest; [|done].
        intros [= <- <- <-]. rewrite <- Hrem. apply pass_keep; auto.
        rewrite Hrem. simpl. lia.
Qed.

Lemma simplify_pass F A F' u A' :
  simplify_with_unit_clauses F A = Some (F', u, A') → pass F A F' u A'.
Proof. rewrite simplify_propagate_spec. apply propagate_spec_pass. Qed.

(** Variables of clauses and formulas. *)

Lemma elem_of_clause_vars v cl : v ∈ clause_vars cl ↔ ∃ b, (v, b) ∈ cl.
Proof.
  unfold clause_vars. rewrite elem_of_list_to_set, list_elem_of_fmap. split.
  - intros [[v' b] [-> ?]]. by exists b.
  - intros [b ?]. by exists (v, b).
Qed.

Lemma formula_vars_cons cl F :
  formula_vars (cl :: F) = clause_vars cl ∪ formula_vars F.
Proof. reflexivity. Qed.

Lemma elem_of_formula_vars v F :
  v ∈ formula_vars F ↔ ∃ cl b, cl ∈ F ∧ (v, b) ∈ cl.
Proof.
  unfold formula_vars. rewrite elem_of_union_list. split.
  - intros [X [[cl [-> Hcl]]%list_elem_of_fmap [b Hb]%elem_of_clause_vars]]. eauto.
  - intros (cl & b & Hcl & Hb). exists (clause_vars cl). split.
    + apply list_elem_of_fmap. eauto.
    + apply elem_of_clause_vars. eauto.
Qed.

Lemma remaining_unit_unassigned A cl v b :
  ¬ Exists (lit_matches A) cl → remaining A cl = [(v, b)] →
  (v, b) ∈ cl ∧ A !! v = None.
Proof.
  intros Hno Hrem.
  apply (remaining_unassigned A cl (v, b) Hno). rewrite Hrem. apply list_elem_of_here.
Qed.

(** The dictionary only grows during a pass. *)
Lemma pass_subseteq F A F' u A' : pass F A F' u A' → A ⊆ A'.
Proof.
  induction 1 as [|? ? ? ? ? ? ? ? IH|cl rest A v b F' u A' Hno Hrem ? IH|]; try done.
  etrans; [|exact IH].
  apply insert_subseteq. by eapply remaining_unit_unassigned.
Qed.

(** New keys are variables of the formula. *)
Lemma pass_dom F A F' u A' :
  pass F A F' u A' → dom A' ⊆ dom A ∪ formula_vars F.
Proof.
  induction 1 as [|? ? ? ? ? ? ? ? IH|cl rest A v b F' u A' Hno Hrem ? IH|? ? ? ? ? ? ? ? ? IH];
    rewrite ?formula_vars_cons; [set_solver..| |set_solver].
  rewrite dom_insert in IH.
  destruct (remaining_unit_unassigned _ _ _ _ Hno Hrem) as [Hin _].
  assert (v ∈ clause_vars cl) by (apply elem_of_clause_vars; eauto).
  set_solver.
Qed.

(** A pass that reports no unit clause leaves the dictionary alone. *)
Lemma pass_no_unit F A F' A' : pass F A F' false A' → A' = A.
Proof.
  intros H. remember false as u eqn:Hu.
  induction H; try done; auto.
Qed.

(** A pass that reports a unit clause has assigned a variable of the
    formula that was unassigned before. *)
Lemma pass_unit_progress F A F' A' :
  pass F A F' true A' →
  ∃ v, v ∈ formula_vars F ∧ A !! v = None ∧ is_Some (A' !! v).
Proof.
  intros H. remember true as u eqn:Hu.
  induction H as [|cl rest A F' u A' Hm H IH|cl rest A v b F' u A' Hno Hrem H IH
                  |cl rest A F' u A' Hno Hlen H IH]; try done.
  - destruct (IH Hu) as (v & ? & ? & ?). exists v. rewrite formula_vars_cons. set_solver.
  - destruct (remaining_unit_unassigned _ _ _ _ Hno Hrem) as [Hin Hnone].
    exists v. split_and!; [|done|].
    + rewrite formula_vars_cons. apply elem_of_union_l, elem_of_clause_vars. eauto.
    + exists b. eapply lookup_weaken; [|by eapply pass_subseteq].
      apply lookup_insert_eq.
  - destruct (IH Hu) as (v & ? & ? & ?). exists v. rewrite formula_vars_cons. set_solver.
Qed.

(** Every clause of the output has at least two literals, is a sub-clause
    of an input clause, and mentions only variables that were unassigned
    when the pass started. *)
Lemma pass_output F A F' u A' :
  pass F A F' u A' →
  ∀ cl', cl' ∈ F' →
    2 ≤ length cl' ∧ (∀ l, l ∈ cl' → A !! l.1 = None) ∧ ∃ cl, cl ∈ F ∧ cl' ⊆ cl.
Proof.
  induction 1 as [|cl rest A F' u A' Hm H IH|cl rest A v b F' u A' Hno Hrem H IH
                  |cl rest A F' u A' Hno Hlen H IH]; intros cl' Hcl'.
  - by apply elem_of_nil in Hcl'.
  - destruct (IH _ Hcl') as (? & ? & cl0 & ? & ?). split_and!; [done..|].
    exists cl0. split; [by apply list_elem_of_further|done].
  - destruct (IH _ Hcl') as (? & Hun & cl0 & ? & ?). split_and!; [done| |].
    + intros l Hl. specialize (Hun l Hl).
      apply lookup_insert_None in Hun. tauto.
    + exists cl0. split; [by apply list_elem_of_further|done].
  - apply elem_of_cons in Hcl' as [->|Hcl'].
    + split_and!; [done| |].
      * intros l Hl. by eapply remaining_unassigned.
      * exists cl. split; [apply list_elem_of_here|apply remaining_subseteq].
    + destruct (IH _ Hcl') as (? & ? & cl0 & ? & ?). split_and!; [done..|].
      exists cl0. split; [by apply list_elem_of_further|done].
Qed.

Lemma pass_vars F A F' u A' :
  pass F A F' u A' → formula_vars F' ⊆ formula_vars F ∖ dom A.
Proof.
  intros H v (cl' & b & Hcl' & Hb)%elem_of_formula_vars.
  destruct (pass_output _ _ _ _ _ H cl' Hcl') as (_ & Hun & cl & Hcl & Hsub).
  apply elem_of_difference. split.
  - apply elem_of_formula_vars. exists cl, b. split; [done|]. by apply Hsub.
  - apply not_elem_of_dom. exact (Hun (v, b) Hb).
Qed.

(** ** Soundness and completeness of one pass *)

Lemma clause_satisfied_weaken A A' cl :
  A ⊆ A' → clause_satisfied A cl → clause_satisfied A' cl.
Proof.
  intros Hsub (v & b & Hin & Hv). exists v, b. split; [done|].
  by eapply lookup_weaken.
Qed.

Lemma clause_satisfied_mono A cl cl' :
  cl' ⊆ cl → clause_satisfied A cl' → clause_satisfied A cl.
Proof. intros Hsub (v & b & Hin & Hv). exists v, b. auto. Qed.

Lemma Exists_lit_matches A cl :
  Exists (lit_matches A) cl ↔ clause_satisfied A cl.
Proof.
  rewrite Exists_exists. split.
  - intros ([v b] & Hin & Hm). by exists v, b.
  - intros (v & b & Hin & Hm). by exists (v, b).
Qed.

(** Every input clause is satisfied by the dictionary the pass leaves, or
    survives in the output as a sub-clause. *)
Lemma pass_sound F A F' u A' :
  pass F A F' u A' →
  ∀ cl, cl ∈ F → clause_satisfied A' cl ∨ ∃ cl', cl' ∈ F' ∧ cl' ⊆ cl.
Proof.
  induction 1 as [|cl rest A F' u A' Hm H IH|cl rest A v b F' u A' Hno Hrem H IH
                  |cl rest A F' u A' Hno Hlen H IH]; intros cl0 Hcl0.
  - by apply elem_of_nil in Hcl0.
  - apply elem_of_cons in Hcl0 as [->|Hcl0]; [|by apply IH].
    left. eapply clause_satisfied_weaken; [by eapply pass_subseteq|].
    by apply Exists_lit_matches.
  - apply elem_of_cons in Hcl0 as [->|Hcl0]; [|by apply IH].
    left. destruct (remaining_unit_unassigned _ _ _ _ Hno Hrem) as [Hin _].
    eapply clause_satisfied_weaken; [by eapply pass_subseteq|].
    exists v, b. split; [done|]. apply lookup_insert_eq.
  - apply elem_of_cons in Hcl0 as [->|Hcl0].
    + right. exists (remaining A cl). split; [apply list_elem_of_here|].
      apply remaining_subseteq.
    + destruct (IH _ Hcl0) as [?|(cl' & ? & ?)]; [by left|right].
      exists cl'. split; [by apply list_elem_of_further|done].
Qed.

Lemma total_satisfies_cons σ cl F :
  total_satisfies σ (cl :: F) ↔
  (∃ v b, (v, b) ∈ cl ∧ σ v = b) ∧ total_satisfies σ F.
Proof.
  unfold total_satisfies. split.
  - intros H. split.
    + apply H, list_elem_of_here.
    + intros cl0 ?. by apply H, list_elem_of_further.
  - intros [H1 H2] cl0 [->|?]%elem_of_cons; auto.
Qed.

(** A literal that is true under a total assignment extending the
    dictionary is among the remaining ones. *)
Lemma true_literal_remaining σ A cl v b :
  agrees σ A → (v, b) ∈ cl → σ v = b → (v, b) ∈ remaining A cl.
Proof.
  intros Hag Hin Hσ. apply list_elem_of_filter. split; [|done].
  intros Hf. unfold lit_falsified in Hf. simpl in Hf.
  apply Hag in Hf. rewrite Hσ in Hf. by destruct b.
Qed.

Lemma agrees_insert σ A v b : agrees σ A → σ v = b → agrees σ (<[v := b]> A).
Proof.
  intros Hag Hσ v' b' Hl. apply lookup_insert_Some in Hl as [[<- <-]|[_ Hl]]; auto.
Qed.

(** A model of the input that extends the dictionary before the pass
    extends it after the pass and is a model of the output. *)
Lemma pass_complete σ F A F' u A' :
  pass F A F' u A' → agrees σ A → total_satisfies σ F →
  agrees σ A' ∧ total_satisfies σ F'.
Proof.
  induction 1 as [|cl rest A F' u A' Hm H IH|cl rest A v b F' u A' Hno Hrem H IH
                  |cl rest A F' u A' Hno Hlen H IH]; intros Hag Hsat.
  - done.
  - apply total_satisfies_cons in Hsat as [_ Hsat]. auto.
  - apply total_satisfies_cons in Hsat as [(v0 & b0 & Hin & Hσ) Hsat].
    apply IH; [|done]. apply agrees_insert; [done|].
    pose proof (true_literal_remaining σ A cl v0 b0 Hag Hin Hσ) as Hr.
    rewrite Hrem in Hr. apply list_elem_of_singleton in Hr. by simplify_eq.
  - apply total_satisfies_cons in Hsat as [(v0 & b0 & Hin & Hσ) Hsat].
    destruct (IH Hag Hsat) as [Hag' Hsat']. split; [done|].
    apply total_satisfies_cons. split; [|done].
    exists v0, b0. split; [|done]. by eapply true_literal_remaining.
Qed.

(** Such a model rules out CONTRADICTION. *)
Lemma propagate_spec_model σ F A :
  agrees σ A → total_satisfies σ F → is_Some (propagate_spec F A).
Proof.
  revert A. induction F as [|cl F IH]; intros A Hag Hsat; simpl; [by eexists|].
  apply total_satisfies_cons in Hsat as [(v0 & b0 & Hin & Hσ) Hsat].
  destruct (decide (Exists (lit_matches A) cl)) as [Hm|Hm]; [by apply IH|].
  pose proof (true_literal_remaining σ A cl v0 b0 Hag Hin Hσ) as Hr.
  destruct (remaining A cl) as [|[v b] [|l2 rem]] eqn:Hrem.
  - by apply elem_of_nil in Hr.
  - apply list_elem_of_singleton in Hr. simplify_eq.
    destruct (IH (<[v := σ v]> A)) as [[[F1 u1] A1] ->]; [|done|by eexists].
    by apply agrees_insert.
  - destruct (IH A Hag Hsat) as [[[F1 u1] A1] ->]. by eexists.
Qed.

(** ** A pass over clauses that are already simplified *)

Lemma remaining_id A cl :
  (∀ l, l ∈ cl → A !! l.1 = None) → remaining A cl = cl.
Proof.
  intros Hun. induction cl as [|l cl IH]; [done|].
  rewrite remaining_cons, decide_True.
  - f_equal. apply IH. intros l' ?. by apply Hun, list_elem_of_further.
  - unfold lit_falsified. rewrite (Hun l); [done|]. apply list_elem_of_here.
Qed.

Lemma propagate_spec_fixpoint F A :
  (∀ cl, cl ∈ F → 2 ≤ length cl ∧ ∀ l, l ∈ cl → A !! l.1 = None) →
  propagate_spec F A = Some (F, false, A).
Proof.
  induction F as [|cl F IH]; intros Hall; simpl; [done|].
  destruct (Hall cl) as [Hlen Hun]; [apply list_elem_of_here|].
  rewrite decide_False.
  - rewrite (remaining_id A cl Hun).
    rewrite IH by (intros cl0 ?; by apply Hall, list_elem_of_further).
    destruct cl as [|[v b] [|l2 rem]]; simpl in Hlen; [lia..|done].
  - intros ([v b] & Hin & Hm)%Exists_exists.
    unfold lit_matches in Hm. rewrite (Hun _ Hin) in Hm. done.
Qed.

(** The output of a pass that reported no unit clause is a fixpoint. *)
Lemma simplify_no_unit_fixpoint F A F' A' :
  simplify_with_unit_clauses F A = Some (F', false, A') →
  A' = A ∧ (∀ v, v ∈ formula_vars F' → A' !! v = None) ∧
  simplify_with_unit_clauses F' A' = Some (F', false, A').
Proof.
  intros Hpass%simplify_pass.
  pose proof (pass_no_unit _ _ _ _ Hpass) as ->.
  pose proof (pass_output _ _ _ _ _ Hpass) as Hout.
  split_and!; [done| |].
  - intros v (cl' & b & Hcl' & Hb)%elem_of_formula_vars.
    destruct (Hout cl' Hcl') as (_ & Hun & _). exact (Hun (v, b) Hb).
  - rewrite simplify_propagate_spec. apply propagate_spec_fixpoint.
    intros cl' Hcl'. destruct (Hout cl' Hcl') as (? & ? & _). done.
Qed.

(** ** The propagation loop of [try_assignment] *)

Lemma unit_loop_post iters F A F' A' :
  unit_loop iters F A = LoopDone F' A' → loop_post F A F' A'.
Proof.
  revert F A. induction iters as [|iters IH]; intros F A; simpl; [done|].
  destruct (simplify_with_unit_clauses F A) as [[[F1 [|]] A1]|] eqn:Hs; [| |done].
  - apply simplify_pass in Hs. intros [? ? ? ? Hsnd]%IH.
    pose proof (pass_subseteq _ _ _ _ _ Hs).
    pose proof (pass_dom _ _ _ _ _ Hs).
    pose proof (pass_vars _ _ _ _ _ Hs).
    split.
    + by etrans.
    + set_solver.
    + set_solver.
    + done.
    + intros cl Hcl. destruct (pass_sound _ _ _ _ _ Hs cl Hcl) as [Hsat|(cl1 & Hcl1 & Hsub)].
      * left. by eapply clause_satisfied_weaken.
      * destruct (Hsnd cl1 Hcl1) as [Hsat|(cl' & Hcl' & Hsub')].
        -- left. by eapply clause_satisfied_mono.
        -- right. exists cl'. split; [done|]. by etrans.
  - intros [= <- <-]. apply simplify_pass in Hs.
    pose proof (pass_no_unit _ _ _ _ Hs) as ->.
    split.
    + done.
    + set_solver.
    + by eapply pass_vars.
    + intros cl' Hcl'. by destruct (pass_output _ _ _ _ _ Hs cl' Hcl').
    + by eapply pass_sound.
Qed.

Lemma unit_loop_complete σ iters F A :
  agrees σ A → total_satisfies σ F →
  unit_loop iters F A ≠ LoopContradiction ∧
  ∀ F' A', unit_loop iters F A = LoopDone F' A' →
           agrees σ A' ∧ total_satisfies σ F'.
Proof.
  revert F A. induction iters as [|iters IH]; intros F A Hag Hsat; simpl; [done|].
  destruct (propagate_spec_model σ F A Hag Hsat) as [[[F1 u1] A1] Hs].
  rewrite <- simplify_propagate_spec in Hs. rewrite Hs.
  apply simplify_pass in Hs.
  destruct (pass_complete σ _ _ _ _ _ Hs Hag Hsat) as [Hag1 Hsat1].
  destruct u1; [by apply IH|].
  split; [done|]. by intros ? ? [= <- <-].
Qed.

(** An iteration that reports a unit clause decreases that number. *)
Lemma pass_unit_measure F A F' A' :
  pass F A F' true A' → unassigned_vars F' A' < unassigned_vars F A.
Proof.
  intros Hs. unfold unassigned_vars. apply subset_size.
  pose proof (pass_subseteq _ _ _ _ _ Hs) as Hsub%subseteq_dom.
  pose proof (pass_vars _ _ _ _ _ Hs).
  destruct (pass_unit_progress _ _ _ _ Hs) as (v & Hv & Hnone & Hsome).
  apply not_elem_of_dom in Hnone. apply elem_of_dom in Hsome.
  apply (strict_spec_alt (R := (⊆))). split; [set_solver|].
  intros Heq. assert (v ∈ formula_vars F ∖ dom A) as Hin by set_solver.
  rewrite <- Heq in Hin. set_solver.
Qed.

Lemma unit_loop_enough iters F A :
  unassigned_vars F A < iters → unit_loop iters F A ≠ LoopOutOfFuel.
Proof.
  revert F A. induction iters as [|iters IH]; intros F A Hlt; simpl; [lia|].
  destruct (simplify_with_unit_clauses F A) as [[[F1 [|]] A1]|] eqn:Hs; [|done..].
  apply IH. apply simplify_pass, pass_unit_measure in Hs. lia.
Qed.

Lemma unit_loop_more_fuel iters iters' F A :
  unit_loop iters F A ≠ LoopOutOfFuel → iters ≤ iters' →
  unit_loop iters' F A = unit_loop iters F A.
Proof.
  revert iters' F A. induction iters as [|iters IH]; intros iters' F A; simpl; [done|].
  intros Hne Hle. destruct iters' as [|iters']; [lia|]. simpl.
  destruct (simplify_with_unit_clauses F A) as [[[F1 [|]] A1]|]; [|done..].
  apply IH; [done|lia].
Qed.

Lemma num_vars_le_unassigned F A : unassigned_vars F A ≤ num_vars F.
Proof. unfold unassigned_vars, num_vars. apply subseteq_size. set_solver. Qed.

(** After the loop that starts from a seed on a variable of the formula,
    the residual formula has strictly fewer variables. *)
Lemma unit_loop_fewer_vars iters F v val F' A' :
  v ∈ formula_vars F →
  unit_loop iters F {[v := val]} = LoopDone F' A' →
  num_vars F' < num_vars F.
Proof.
  intros Hv [Hsub _ Hvars _ _]%unit_loop_post.
  unfold num_vars. apply subset_size. apply subseteq_dom in Hsub. rewrite dom_singleton in Hsub.
  apply (strict_spec_alt (R := (⊆))). split; [set_solver|].
  intros Heq. rewrite <- Heq in Hv. set_solver.
Qed.

(** ** The search *)

Lemma try_polarities_inv try v vals r :
  try_polarities try v vals = r →
  (r = Returned None ∧ ∀ val, val ∈ vals → try {[v := val]} = Returned None)
  ∨ (r ≠ Returned None ∧ ∃ val, val ∈ vals ∧ try {[v := val]} = r).
Proof.
  revert r. induction vals as [|val vals IH]; intros r; simpl.
  - intros <-. left. split; [done|]. by intros ? ?%elem_of_nil.
  - destruct (try {[v := val]}) as [[A|]| |] eqn:Htry.
    + intros <-. right. split; [done|]. exists val. split; [apply list_elem_of_here|done].
    + intros [[-> Hall]|[Hne (val' & Hin & Hval')]]%IH.
      * left. split; [done|]. by intros val' [->|?]%elem_of_cons; auto.
      * right. split; [done|]. exists val'. split; [by apply list_elem_of_further|done].
    + intros <-. right. split; [done|]. exists val. split; [apply list_elem_of_here|done].
    + intros <-. right. split; [done|]. exists val. split; [apply list_elem_of_here|done].
Qed.

Lemma try_polarities_ext try try' v vals :
  try_polarities try v vals ≠ OutOfFuel →
  (∀ val, val ∈ vals → try {[v := val]} ≠ OutOfFuel →
          try' {[v := val]} = try {[v := val]}) →
  try_polarities try' v vals = try_polarities try v vals.
Proof.
  induction vals as [|val vals IH]; simpl; [done|]. intros Hne Hext.
  assert (try {[v := val]} ≠ OutOfFuel) as Hval.
  { intros Heq. by rewrite Heq in Hne. }
  rewrite (Hext val); [|apply list_elem_of_here|done].
  destruct (try {[v := val]}) as [[A|]| |]; try done.
  apply IH; [done|]. intros val' ? ?. apply Hext; [by apply list_elem_of_further|done].
Qed.

Lemma try_assignment_Some recurse iters F T A :
  try_assignment recurse iters F T = Returned (Some A) →
  ∃ F' T' A0, unit_loop iters F T = LoopDone F' T' ∧
              recurse F' = Returned (Some A0) ∧ A = dict_update A0 T'.
Proof.
  unfold try_assignment. destruct (unit_loop iters F T) as [F' T'| |]; [|done..].
  destruct (recurse F') as [[A0|]| |] eqn:Hrec; [|done..].
  intros [= <-]. by exists F', T', A0.
Qed.

Lemma try_assignment_None recurse iters F T :
  try_assignment recurse iters F T = Returned None →
  unit_loop iters F T = LoopContradiction
  ∨ ∃ F' T', unit_loop iters F T = LoopDone F' T' ∧ recurse F' = Returned None.
Proof.
  unfold try_assignment. destruct (unit_loop iters F T) as [F' T'| |]; [|by left|done].
  destruct (recurse F') as [[A0|]| |] eqn:Hrec; [done| |done..].
  intros _. right. eauto.
Qed.

Lemma try_assignment_Raised recurse iters F T e :
  try_assignment recurse iters F T = Raised e →
  ∃ F' T', unit_loop iters F T = LoopDone F' T' ∧ recurse F' = Raised e.
Proof.
  unfold try_assignment. destruct (unit_loop iters F T) as [F' T'| |]; [|done..].
  destruct (recurse F') as [[A0|]| |] eqn:Hrec; [done..| |done].
  intros [= <-]. eauto.
Qed.

Lemma try_assignment_OutOfFuel recurse iters F T :
  try_assignment recurse iters F T = OutOfFuel →
  unit_loop iters F T = LoopOutOfFuel
  ∨ ∃ F' T', unit_loop iters F T = LoopDone F' T' ∧ recurse F' = OutOfFuel.
Proof.
  unfold try_assignment. destruct (unit_loop iters F T) as [F' T'| |]; [|done|by left].
  destruct (recurse F') as [[A0|]| |] eqn:Hrec; [done..|].
  intros _. right. eauto.
Qed.

Lemma try_assignment_more_fuel recurse recurse' iters iters' F T :
  try_assignment recurse iters F T ≠ OutOfFuel → iters ≤ iters' →
  (∀ F' T', unit_loop iters F T = LoopDone F' T' →
            recurse F' ≠ OutOfFuel → recurse' F' = recurse F') →
  try_assignment recurse' iters' F T = try_assignment recurse iters F T.
Proof.
  unfold try_assignment. intros Hne Hle Hext.
  assert (unit_loop iters F T ≠ LoopOutOfFuel) as Hloop.
  { intros Heq. by rewrite Heq in Hne. }
  rewrite (unit_loop_more_fuel iters iters') by done.
  destruct (unit_loop iters F T) as [F' T'| |]; [|done..].
  rewrite (Hext F' T'); [done..|].
  intros Heq. by rewrite Heq in Hne.
Qed.

Lemma first_literal_var v b cl rest : v ∈ formula_vars (((v, b) :: cl) :: rest).
Proof.
  apply elem_of_formula_vars. exists ((v, b) :: cl), b.
  split; apply list_elem_of_here.
Qed.

(** A returned dictionary satisfies the formula and binds only variables
    of the formula. *)
Lemma satisfying_assignment_fuel_sound depth iters F A :
  satisfying_assignment_fuel depth iters F = Returned (Some A) →
  satisfies A F ∧ dom A ⊆ formula_vars F.
Proof.
  revert F A. induction depth as [|depth IH]; intros F A; cbn [satisfying_assignment_fuel]; [done|].
  destruct F as [|[|[v b] cl] rest]; [|done|].
  - intros [= <-]. split; [by intros ? ?%elem_of_nil|set_solver].
  - intros [[? _]|[_ (val & _ & Htry)]]%try_polarities_inv; [done|].
    apply try_assignment_Some in Htry as (F' & T' & A0 & Hloop & Hrec & ->).
    apply IH in Hrec as [Hsat Hdom].
    apply unit_loop_post in Hloop as [Hsub Hd Hvars Hlen Hsnd].
    pose proof (first_literal_var v b cl rest) as Hv.
    unfold dict_update. split.
    + intros cl0 Hcl0. destruct (Hsnd cl0 Hcl0) as [Hs|(cl' & Hcl' & Hsubcl)].
      * eapply clause_satisfied_weaken; [apply map_union_subseteq_l|done].
      * destruct (Hsat cl' Hcl') as (v' & b' & Hin' & Hv').
        exists v', b'. split; [by apply Hsubcl|].
        rewrite lookup_union_r; [done|]. apply not_elem_of_dom.
        assert (v' ∈ formula_vars F') by (apply elem_of_formula_vars; eauto).
        set_solver.
    + rewrite dom_union, dom_singleton in *. set_solver.
Qed.

(** [None] is only returned for formulas without a model. *)
Lemma satisfying_assignment_fuel_complete depth iters F σ :
  satisfying_assignment_fuel depth iters F = Returned None →
  ¬ total_satisfies σ F.
Proof.
  revert F. induction depth as [|depth IH]; intros F; cbn [satisfying_assignment_fuel]; [done|].
  destruct F as [|[|[v b] cl] rest]; [done..|].
  intros [[_ Hall]|[? _]]%try_polarities_inv; [|done]. intros Hsat.
  assert (σ v ∈ [b; negb b]) as Hin.
  { destruct (σ v), b; simpl; repeat constructor. }
  apply Hall, try_assignment_None in Hin.
  assert (agrees σ {[v := σ v]}) as Hag.
  { intros v' b' [<- <-]%lookup_singleton_Some. done. }
  destruct (unit_loop_complete σ iters _ _ Hag Hsat) as [Hnc Hdone].
  destruct Hin as [?|(F' & T' & Hloop & Hrec)]; [done|].
  destruct (Hdone _ _ Hloop) as [_ Hsat']. by eapply IH.
Qed.

(** The only exception is the [IndexError] of line 81, on an empty first
    clause. *)
Lemma satisfying_assignment_fuel_raised depth iters F e :
  satisfying_assignment_fuel depth iters F = Raised e →
  e = IndexError ∧ ∃ rest, F = [] :: rest.
Proof.
  revert F. induction depth as [|depth IH]; intros F; cbn [satisfying_assignment_fuel]; [done|].
  destruct F as [|[|[v b] cl] rest]; [done| |].
  - intros [= <-]. eauto.
  - intros [[? _]|[_ (val & _ & Htry)]]%try_polarities_inv; [done|].
    apply try_assignment_Raised in Htry as (F' & T' & Hloop & Hrec).
    apply IH in Hrec as [_ [rest' ->]].
    apply unit_loop_post in Hloop as [_ _ _ Hlen _].
    specialize (Hlen [] (list_elem_of_here _ _)). simpl in Hlen. lia.
Qed.

(** Fuel above the number of distinct variables is enough. *)
Lemma satisfying_assignment_fuel_enough depth iters F :
  num_vars F < depth → num_vars F < iters →
  satisfying_assignment_fuel depth iters F ≠ OutOfFuel.
Proof.
  revert F. induction depth as [|depth IH]; intros F Hd Hi; cbn [satisfying_assignment_fuel]; [lia|].
  destruct F as [|[|[v b] cl] rest]; [done..|].
  intros [[? _]|[_ (val & _ & Htry)]]%try_polarities_inv; [done|].
  pose proof (first_literal_var v b cl rest) as Hv.
  apply try_assignment_OutOfFuel in Htry as [Hloop|(F' & T' & Hloop & Hrec)].
  - revert Hloop. apply unit_loop_enough.
    eapply Nat.le_lt_trans; [apply num_vars_le_unassigned|exact Hi].
  - apply unit_loop_fewer_vars in Hloop; [|done].
    revert Hrec. apply IH; lia.
Qed.

Lemma satisfying_assignment_fuel_more depth depth' iters iters' F :
  satisfying_assignment_fuel depth iters F ≠ OutOfFuel →
  depth ≤ depth' → iters ≤ iters' →
  satisfying_assignment_fuel depth' iters' F = satisfying_assignment_fuel depth iters F.
Proof.
  revert depth' F. induction depth as [|depth IH]; intros depth' F; cbn [satisfying_assignment_fuel]; [done|].
  intros Hne Hd Hi. destruct depth' as [|depth']; [lia|]. cbn [satisfying_assignment_fuel].
  destruct F as [|[|[v b] cl] rest]; [done..|].
  apply try_polarities_ext; [done|]. intros val _ Hval.
  apply try_assignment_more_fuel; [done..|].
  intros F' T' _ Hrec. apply IH; [done|lia|done].
Qed.

Lemma satisfying_assignment_fuel_eq depth iters F :
  num_vars F < depth → num_vars F < iters →
  satisfying_assignment_fuel depth iters F = satisfying_assignment F.
Proof.
  intros Hd Hi. unfold satisfying_assignment.
  apply satisfying_assignment_fuel_more; [|lia..].
  apply satisfying_assignment_fuel_enough; lia.
Qed.

Lemma satisfying_assignment_not_OutOfFuel F : satisfying_assignment F ≠ OutOfFuel.
Proof. apply satisfying_assignment_fuel_enough; lia. Qed.

(** Soundness, for every call that returns a dictionary. *)
Lemma satisfying_assignment_sound F A :
  satisfying_assignment F = Returned (Some A) → satisfies A F.
Proof. intros H. by apply satisfying_assignment_fuel_sound in H as [? _]. Qed.

Lemma satisfying_assignment_raised F e :
  satisfying_assignment F = Raised e ↔ e = IndexError ∧ ∃ rest, F = [] :: rest.
Proof.
  split; [apply satisfying_assignment_fuel_raised|].
  by intros [-> [rest ->]].
Qed.

(** An empty clause anywhere but in first position makes the search
    return [None]. *)
Lemma satisfying_assignment_empty_clause_later cl rest :
  cl ≠ [] → [] ∈ rest → satisfying_assignment (cl :: rest) = Returned None.
Proof.
  intros Hcl Hin.
  destruct (satisfying_assignment (cl :: rest)) as [[A|]| |] eqn:Hres; [|done|..].
  - apply satisfying_assignment_sound in Hres.
    destruct (Hres []) as (v & b & Hvb & _); [by apply list_elem_of_further|].
    by apply elem_of_nil in Hvb.
  - apply satisfying_assignment_raised in Hres as [_ [rest' ?]]. congruence.
  - by apply satisfying_assignment_not_OutOfFuel in Hres.
Qed.

(** The recursive call inside a trial sees enough fuel. *)
Lemma try_assignment_fuel_free F v val :
  v ∈ formula_vars F →
  try_assignment
    (satisfying_assignment_fuel (num_vars F) (S (num_vars F))) (S (num_vars F))
    F {[v := val]}
  = try_assignment satisfying_assignment (S (num_vars F)) F {[v := val]}.
Proof.
  intros Hv. unfold try_assignment.
  destruct (unit_loop _ F _) as [F' T'| |] eqn:Hloop; [|done..].
  apply unit_loop_fewer_vars in Hloop; [|done].
  rewrite satisfying_assignment_fuel_eq by lia. done.
Qed.


(** * The object store: frames and agreement with the pure model *)

Section framing.
Context (D X : gset loc).

Lemma framed_ret {T} (x : T) (Q : T → Prop) : Q x → framed D X (mret x) Q.
Proof. intros HQ h r h' HD [= <- <-]. split_and!; [done..|]. by intros ? [= <-]. Qed.

Lemma framed_raise {T} e (Q : T → Prop) : framed D X (raise e) Q.
Proof. intros h r h' HD [= <- <-]. done. Qed.

Lemma framed_out_of_fuel {T} (Q : T → Prop) : framed D X out_of_fuel Q.
Proof. intros h r h' HD [= <- <-]. done. Qed.

Lemma framed_bind {T U} (m : M T) (k : T → M U) Q R :
  framed D X m Q → (∀ x, Q x → framed D X (k x) R) → framed D X (m ≫= k) R.
Proof.
  intros Hm Hk h r h' HD. unfold mbind, M_bind.
  destruct (m h) as [[x|e|] h1] eqn:Hmh;
    destruct (Hm _ _ _ HD Hmh) as (HD1 & Hsame1 & HQ).
  - intros Hkx. destruct (Hk x (HQ x eq_refl) _ _ _ HD1 Hkx) as (HD2 & Hsame2 & HR).
    split_and!; [done| |done]. intros l ? ?. rewrite Hsame2, Hsame1; done.
  - intros [= <- <-]. done.
  - intros [= <- <-]. done.
Qed.

Lemma framed_weaken {T} (m : M T) (Q R : T → Prop) :
  framed D X m Q → (∀ x, Q x → R x) → framed D X m R.
Proof.
  intros Hm HQR h r h' HD Hmh. destruct (Hm _ _ _ HD Hmh) as (? & ? & ?).
  split_and!; [done..|]. auto.
Qed.

Lemma framed_catch_TypeError {T} (m : M T) :
  framed D X m (λ _, True) → framed D X (catch_TypeError m) (λ _, True).
Proof.
  intros Hm h r h' HD. unfold catch_TypeError.
  destruct (m h) as [[x|[]|] h1] eqn:Hmh;
    destruct (Hm _ _ _ HD Hmh) as (HD1 & Hsame1 & _); by intros [= <- <-].
Qed.

Lemma framed_alloc o : framed D X (alloc o) (λ l, l ∉ D).
Proof.
  intros h r h' HD [= <- <-].
  pose proof (is_fresh (dom h)) as Hfresh.
  split_and!.
  - rewrite dom_insert. set_solver.
  - intros l Hl _. apply lookup_insert_ne. set_solver.
  - intros ? [= <-]. set_solver.
Qed.

Lemma framed_read_list l : framed D X (read_list l) (λ _, True).
Proof.
  intros h r h' HD. unfold read_list.
  destruct (h !! l) as [[items|d]|]; by intros [= <- <-].
Qed.

Lemma framed_read_dict l : framed D X (read_dict l) (λ _, True).
Proof.
  intros h r h' HD. unfold read_dict.
  destruct (h !! l) as [[items|d]|]; by intros [= <- <-].
Qed.

Lemma framed_store_at l o (h : store) :
  writable D X l → D ⊆ dom h →
  D ⊆ dom (<[l := o]> h) ∧ ∀ l', l' ∈ D → l' ∉ X → <[l := o]> h !! l' = h !! l'.
Proof.
  intros Hw HD. split.
  - rewrite dom_insert. set_solver.
  - intros l' ? ?. apply lookup_insert_ne. destruct Hw; set_solver.
Qed.

Lemma framed_list_append l x :
  writable D X l → framed D X (list_append l x) (λ _, True).
Proof.
  intros Hw h r h' HD. unfold list_append.
  destruct (h !! l) as [[items|d]|]; intros [= <- <-]; try done.
  destruct (framed_store_at l (OList (items ++ [x])) h Hw HD). done.
Qed.

Lemma framed_dict_setitem l k b :
  writable D X l → framed D X (dict_setitem l k b) (λ _, True).
Proof.
  intros Hw h r h' HD. unfold dict_setitem.
  destruct (h !! l) as [[items|d]|]; intros [= <- <-]; try done.
  destruct (framed_store_at l (ODict (<[k := b]> d)) h Hw HD). done.
Qed.

Lemma framed_dict_update_obj l other :
  writable D X l → framed D X (dict_update_obj l other) (λ _, True).
Proof.
  intros Hw h r h' HD. unfold dict_update_obj.
  destruct (h !! l) as [[items|d]|]; [by intros [= <- <-]| |by intros [= <- <-]].
  destruct (h !! other) as [[items|o]|]; intros [= <- <-]; try done.
  destruct (framed_store_at l (ODict (dict_update d o)) h Hw HD). done.
Qed.

(** The two loops of the propagator write to the new lists and to the
    dictionary only. *)
Lemma framed_scan_items items assignments simplified_clause :
  writable D X simplified_clause →
  framed D X (Heap.scan_items items assignments simplified_clause) (λ _, True).
Proof.
  intros Hw. induction items as [|[l|v b] items IH]; simpl.
  - by apply framed_ret.
  - apply framed_raise.
  - eapply framed_bind; [apply framed_read_dict|]. intros d _.
    destruct (d !! v) as [stored|].
    + destruct (Bool.eqb stored b); [by apply framed_ret|done].
    + eapply framed_bind; [by apply framed_list_append|done].
Qed.

Lemma framed_simplify_items items assignments simplified_formula u :
  writable D X assignments → writable D X simplified_formula →
  framed D X (Heap.simplify_items items assignments simplified_formula u) (λ _, True).
Proof.
  intros Ha Hsf. revert u. induction items as [|[clause|v b] items IH]; intros u; simpl.
  - by apply framed_ret.
  - eapply framed_bind; [apply framed_alloc|]. intros sc Hsc. simpl in Hsc.
    eapply framed_bind; [apply framed_read_list|]. intros lits _.
    eapply framed_bind; [apply framed_scan_items; by right|]. intros [|] _; [|done].
    eapply framed_bind; [apply framed_read_list|]. intros [|[l|v b] [|x2 sc']] _.
    + by apply framed_ret.
    + apply framed_raise.
    + eapply framed_bind; [by apply framed_list_append|done].
    + eapply framed_bind; [by apply framed_dict_setitem|done].
    + eapply framed_bind; [by apply framed_list_append|done].
  - apply framed_raise.
Qed.

Lemma framed_simplify formula assignments :
  writable D X assignments →
  framed D X (Heap.simplify_with_unit_clauses formula assignments) (λ _, True).
Proof.
  intros Ha. unfold Heap.simplify_with_unit_clauses.
  eapply framed_bind; [apply framed_alloc|]. intros sf Hsf. simpl in Hsf.
  eapply framed_bind; [apply framed_read_list|]. intros items _.
  eapply framed_bind; [apply framed_simplify_items; [done|by right]|]. intros r _.
  by apply framed_ret.
Qed.

Lemma framed_unit_loop iters simplified_formula temp_assignment :
  writable D X temp_assignment →
  framed D X (Heap.unit_loop iters simplified_formula temp_assignment) (λ _, True).
Proof.
  intros Ht. revert simplified_formula.
  induction iters as [|iters IH]; intros sf; simpl; [apply framed_out_of_fuel|].
  eapply framed_bind.
  - apply framed_catch_TypeError. eapply framed_bind; [by apply framed_simplify|].
    intros [p|] _; [by apply framed_ret|apply framed_raise].
  - intros [[sf' [|]]|] _; [done|by apply framed_ret..].
Qed.

Lemma framed_try_assignment recurse iters formula temp_assignment :
  (∀ f, framed D X (recurse f) (fresh_result D)) →
  writable D X temp_assignment →
  framed D X (Heap.try_assignment recurse iters formula temp_assignment)
    (fresh_result D).
Proof.
  intros Hrec Ht. unfold Heap.try_assignment.
  eapply framed_bind; [apply framed_read_list|]. intros items _.
  eapply framed_bind; [apply framed_alloc|]. intros sf _.
  eapply framed_bind; [by apply framed_unit_loop|]. intros [sf'|] _.
  - eapply framed_bind; [apply Hrec|]. intros [a|] Ha.
    + eapply framed_bind; [apply framed_dict_update_obj; right; by apply Ha|].
      intros _ _. by apply framed_ret.
    + by apply framed_ret.
  - by apply framed_ret.
Qed.

Lemma framed_try_polarities try variable vals :
  (∀ t, writable D X t → framed D X (try t) (fresh_result D)) →
  framed D X (Heap.try_polarities try variable vals) (fresh_result D).
Proof.
  intros Htry. induction vals as [|val vals IH]; simpl.
  - by apply framed_ret.
  - eapply framed_bind; [apply framed_alloc|]. intros t Hfresh. simpl in Hfresh.
    eapply framed_bind; [apply Htry; by right|]. intros [a|] Ha; [|done].
    by apply framed_ret.
Qed.

Lemma framed_satisfying_assignment depth iters formula :
  framed D X (Heap.satisfying_assignment depth iters formula) (fresh_result D).
Proof.
  revert formula. induction depth as [|depth IH]; intros formula;
    cbn [Heap.satisfying_assignment]; [apply framed_out_of_fuel|].
  eapply framed_bind; [apply framed_read_list|]. intros [|[clause|v b] items] _.
  - eapply framed_bind; [apply framed_alloc|]. intros a Ha. simpl in Ha.
    apply framed_ret. by intros ? [= <-].
  - eapply framed_bind; [apply framed_read_list|]. intros [|[l|v b] lits] _.
    + apply framed_raise.
    + apply framed_raise.
    + apply framed_try_polarities. intros t Ht. by apply framed_try_assignment.
  - apply framed_raise.
Qed.

End framing.

(** ** The store model computes what the pure model computes *)

Section simulation.

Lemma run_bind {T U} (m : M T) (k : T → M U) h :
  (m ≫= k) h =
  match m h with
  | (Returned x, h') => k x h'
  | (Raised e, h') => (Raised e, h')
  | (OutOfFuel, h') => (OutOfFuel, h')
  end.
Proof. reflexivity. Qed.

Lemma run_bind_val {T U} (m : M T) (k : T → M U) h x h1 :
  m h = (Returned x, h1) → (m ≫= k) h = k x h1.
Proof. intros Hm. by rewrite run_bind, Hm. Qed.

Lemma run_alloc o (h : store) :
  alloc o h = (Returned (fresh (dom h)), <[fresh (dom h) := o]> h).
Proof. reflexivity. Qed.

Lemma run_read_list l items (h : store) :
  h !! l = Some (OList items) → read_list l h = (Returned items, h).
Proof. unfold read_list. by intros ->. Qed.

Lemma run_read_dict l d (h : store) :
  h !! l = Some (ODict d) → read_dict l h = (Returned d, h).
Proof. unfold read_dict. by intros ->. Qed.

Lemma run_list_append l x items (h : store) :
  h !! l = Some (OList items) →
  list_append l x h = (Returned (), <[l := OList (items ++ [x])]> h).
Proof. unfold list_append. by intros ->. Qed.

Lemma run_dict_setitem l k b d (h : store) :
  h !! l = Some (ODict d) →
  dict_setitem l k b h = (Returned (), <[l := ODict (<[k := b]> d)]> h).
Proof. unfold dict_setitem. by intros ->. Qed.

Lemma is_clauses_insert (h : store) cs F l o :
  Forall2 (is_clause h) cs F → l ∉ cs → Forall2 (is_clause (<[l := o]> h)) cs F.
Proof.
  induction 1 as [|c cl cs F Hc _ IH]; intros Hl; constructor.
  - unfold is_clause. rewrite lookup_insert_ne; [done|]. set_solver.
  - apply IH. set_solver.
Qed.

Lemma is_clauses_in_store (h : store) cs F c :
  Forall2 (is_clause h) cs F → c ∈ cs → ∃ cl, h !! c = Some (OList (lit_val <$> cl)).
Proof.
  induction 1 as [|c' cl cs F Hc _ IH]; intros Hin.
  - by apply elem_of_nil in Hin.
  - apply elem_of_cons in Hin as [->|Hin]; [by exists cl|auto].
Qed.

Lemma fresh_not_clause (h : store) cs F :
  Forall2 (is_clause h) cs F → fresh (dom h) ∉ cs.
Proof.
  intros Hcs Hin. destruct (is_clauses_in_store _ _ _ _ Hcs Hin) as [cl Hcl].
  apply (is_fresh (dom h)). by apply elem_of_dom_2 in Hcl.
Qed.

Lemma dict_not_clause (h : store) cs F a d :
  Forall2 (is_clause h) cs F → h !! a = Some (ODict d) → a ∉ cs.
Proof.
  intros Hcs Ha Hin. destruct (is_clauses_in_store _ _ _ _ Hcs Hin) as [cl Hcl].
  rewrite Ha in Hcl. discriminate Hcl.
Qed.

Lemma fresh_lookup (h : store) : h !! fresh (dom h) = None.
Proof. apply not_elem_of_dom, is_fresh. Qed.

Lemma scan_items_cons v b cl a sc :
  Heap.scan_items (lit_val <$> (v, b) :: cl) a sc =
  (d ← read_dict a;
   match d !! v with
   | Some stored =>
       if Bool.eqb stored b then mret false else Heap.scan_items (lit_val <$> cl) a sc
   | None => list_append sc (VTuple v b);; Heap.scan_items (lit_val <$> cl) a sc
   end).
Proof. reflexivity. Qed.

Lemma simplify_items_cons c cs a sf u :
  Heap.simplify_items (VRef <$> c :: cs) a sf u =
  (simplified_clause ← alloc (OList []);
   lits ← read_list c;
   completed ← Heap.scan_items lits a simplified_clause;
   if completed : bool then
     sc ← read_list simplified_clause;
     match sc with
     | [] => mret None
     | [VTuple clause_var clause_val] =>
         dict_setitem a clause_var clause_val;;
         Heap.simplify_items (VRef <$> cs) a sf true
     | [VRef _] => raise TypeError
     | _ =>
         list_append sf (VRef simplified_clause);;
         Heap.simplify_items (VRef <$> cs) a sf u
     end
   else Heap.simplify_items (VRef <$> cs) a sf u).
Proof. reflexivity. Qed.

(** The clause scan. *)
Lemma scan_items_sim cl A acc a sc (h : store) :
  h !! a = Some (ODict A) → h !! sc = Some (OList (lit_val <$> acc)) →
  ∃ items',
    Heap.scan_items (lit_val <$> cl) a sc h
    = (Returned (bool_decide (is_Some (scan_clause cl A acc))), <[sc := OList items']> h)
    ∧ ∀ r, scan_clause cl A acc = Some r → items' = lit_val <$> r.
Proof.
  intros Ha. revert acc h Ha. induction cl as [|[v b] cl IH]; intros acc h Ha Hsc.
  - exists (lit_val <$> acc). simpl. rewrite insert_id by done.
    split; [done|]. by intros ? [= <-].
  - rewrite scan_items_cons. cbn [scan_clause].
    rewrite (run_bind_val _ _ _ _ _ (run_read_dict _ _ _ Ha)).
    destruct (A !! v) as [stored|] eqn:Hv.
    + destruct (Bool.eqb stored b).
      * exists (lit_val <$> acc). rewrite insert_id by done. split; [done|]. done.
      * by apply IH.
    + rewrite (run_bind_val _ _ _ _ _ (run_list_append _ _ _ _ Hsc)).
      assert (a ≠ sc) as Hne by congruence.
      destruct (IH (acc ++ [(v, b)]) (<[sc := OList (fmap lit_val acc ++ [VTuple v b])]> h))
        as (items' & Hrun & Hres).
      * by rewrite lookup_insert_ne.
      * rewrite lookup_insert_eq, fmap_app. done.
      * exists items'. rewrite Hrun, insert_insert_eq. done.
Qed.

(** The loop over the clauses. *)
Lemma simplify_items_sim cs F :
  ∀ acc scs u A a sf (h : store) r h',
    Forall2 (is_clause h) cs F → sf ∉ cs →
    h !! a = Some (ODict A) →
    h !! sf = Some (OList (VRef <$> scs)) →
    Forall2 (is_clause h) scs acc → sf ∉ scs →
    Heap.simplify_items (VRef <$> cs) a sf u h = (r, h') →
    match simplify_loop F acc u A with
    | None => r = Returned None
    | Some (F', u', A') =>
        r = Returned (Some u') ∧ h' !! a = Some (ODict A') ∧
        ∃ scs', h' !! sf = Some (OList (VRef <$> scs')) ∧
                Forall2 (is_clause h') scs' F'
    end.
Proof.
  revert F. induction cs as [|c cs IH]; intros F acc scs u A a sf h r h' Hcs Hsfcs Ha Hsf Hscs Hsfscs.
  - apply Forall2_nil_inv_l in Hcs as ->. simpl. intros [= <- <-]. eauto.
  - apply Forall2_cons_inv_l in Hcs as (cl & F' & Hc & Hcs & ->).
    rewrite simplify_items_cons. cbn [simplify_loop].
    set (sc := fresh (dom h)). set (h1 := <[sc := OList []]> h).
    assert (h !! sc = None) as Hscnone by apply fresh_lookup.
    assert (sc ≠ a) as Hsca by congruence.
    assert (sc ≠ sf) as Hscsf by congruence.
    assert (sc ≠ c) as Hscc by (unfold is_clause in Hc; congruence).
    assert (a ≠ sf) as Hasf by congruence.
    assert (sc ∉ cs) as Hsccs by (by eapply fresh_not_clause).
    assert (sc ∉ scs) as Hscscs by (by eapply fresh_not_clause).
    assert (sf ∉ cs) as Hsfcs' by set_solver.
    assert (a ∉ cs) as Hacs by (by eapply dict_not_clause).
    assert (a ∉ scs) as Hascs by (by eapply dict_not_clause).
    rewrite (run_bind_val _ _ _ _ _ (run_alloc _ _)). fold sc.
    rewrite (run_bind_val _ _ h1 (lit_val <$> cl) h1);
      [|apply run_read_list; subst h1; by rewrite lookup_insert_ne].
    destruct (scan_items_sim cl A [] a sc h1) as (items' & Hscan & Hitems).
    { subst h1. by rewrite lookup_insert_ne. }
    { subst h1. by rewrite lookup_insert_eq. }
    rewrite (run_bind_val _ _ _ _ _ Hscan). subst h1. rewrite insert_insert_eq.
    set (h2 := <[sc := OList items']> h).
    assert (Forall2 (is_clause h2) cs F') as Hcs2
      by (subst h2; by apply is_clauses_insert).
    assert (Forall2 (is_clause h2) scs acc) as Hscs2
      by (subst h2; by apply is_clauses_insert).
    assert (h2 !! a = Some (ODict A)) as Ha2 by (subst h2; by rewrite lookup_insert_ne).
    assert (h2 !! sf = Some (OList (VRef <$> scs))) as Hsf2
      by (subst h2; by rewrite lookup_insert_ne).
    destruct (scan_clause cl A []) as [rcl|] eqn:Hpure.
    + rewrite bool_decide_true by eauto.
      pose proof (Hitems rcl eq_refl) as Hit. subst items'.
      rewrite (run_bind_val _ _ h2 (lit_val <$> rcl) h2);
        [|apply run_read_list; subst h2; by rewrite lookup_insert_eq].
      destruct rcl as [|[v b] [|l2 rcl]].
      * simpl. by intros [= <- <-].
      * cbn [fmap list_fmap lit_val fst snd].
        rewrite (run_bind_val _ _ _ _ _ (run_dict_setitem _ _ _ _ _ Ha2)).
        apply (IH F' acc scs); try done.
        -- apply is_clauses_insert; done.
        -- by rewrite lookup_insert_eq.
        -- by rewrite lookup_insert_ne.
        -- apply is_clauses_insert; done.
      * cbn [fmap list_fmap lit_val fst snd].
        rewrite (run_bind_val _ _ _ _ _ (run_list_append _ _ _ _ Hsf2)).
        apply (IH F' (acc ++ [(v, b) :: l2 :: rcl]) (scs ++ [sc])); try done.
        -- apply is_clauses_insert; done.
        -- by rewrite lookup_insert_ne.
        -- rewrite lookup_insert_eq, fmap_app. done.
        -- apply Forall2_app; [by apply is_clauses_insert|].
           constructor; [|constructor]. unfold is_clause.
           rewrite lookup_insert_ne by done. subst h2. by rewrite lookup_insert_eq.
        -- set_solver.
    + rewrite bool_decide_false by (by intros [? ?]).
      by apply (IH F' acc scs).
Qed.

Lemma is_formula_preserved (h h' : store) f F :
  is_formula h f F → lists_preserved h h' → is_formula h' f F.
Proof.
  intros (cs & Hf & Hcs) Hpres. exists cs. split; [by apply Hpres|].
  clear Hf. induction Hcs as [|c cl cs F Hc _ IH]; constructor; [by apply Hpres|done].
Qed.

Lemma lists_preserved_alloc (h : store) o :
  lists_preserved h (<[fresh (dom h) := o]> h).
Proof.
  intros l items Hl. rewrite lookup_insert_ne; [done|].
  intros <-. by rewrite fresh_lookup in Hl.
Qed.

Lemma lists_preserved_framed (h h' : store) (X : gset loc) :
  (∀ l, l ∈ dom h → l ∉ X → h' !! l = h !! l) →
  (∀ l, l ∈ X → ∃ d, h !! l = Some (ODict d)) →
  lists_preserved h h'.
Proof.
  intros Hsame HX l items Hl. rewrite Hsame; [done|by eapply elem_of_dom_2|].
  intros (d & Hd)%HX. congruence.
Qed.

(** One call of the propagator. *)
Lemma simplify_sim (h : store) f F a A r h' :
  is_formula h f F → is_dict h a A →
  Heap.simplify_with_unit_clauses f a h = (r, h') →
  match simplify_with_unit_clauses F A with
  | None => r = Returned None
  | Some (F', u, A') =>
      ∃ sf, r = Returned (Some (sf, u)) ∧ is_formula h' sf F' ∧ is_dict h' a A'
  end.
Proof.
  intros (cs & Hf & Hcs) Ha. unfold Heap.simplify_with_unit_clauses.
  rewrite (run_bind_val _ _ _ _ _ (run_alloc _ _)).
  set (sf := fresh (dom h)). set (h1 := <[sf := OList []]> h).
  assert (h !! sf = None) as Hsfnone by apply fresh_lookup.
  assert (sf ≠ f) as Hsff by congruence.
  assert (sf ≠ a) as Hsfa by (unfold is_dict in Ha; congruence).
  assert (sf ∉ cs) as Hsfcs by (by eapply fresh_not_clause).
  rewrite (run_bind_val _ _ h1 (VRef <$> cs) h1);
    [|apply run_read_list; subst h1; by rewrite lookup_insert_ne].
  rewrite run_bind.
  destruct (Heap.simplify_items (VRef <$> cs) a sf false h1) as [ro h2] eqn:Hrun.
  eapply (simplify_items_sim cs F [] [] false A) in Hrun; try done.
  - unfold simplify_with_unit_clauses.
    destruct (simplify_loop F [] false A) as [[[F' u'] A']|].
    + destruct Hrun as (-> & Ha' & scs' & Hsf' & Hscs'). intros [= <- <-].
      exists sf. split; [done|]. split; [by exists scs'|done].
    + subst ro. by intros [= <- <-].
  - subst h1. by apply is_clauses_insert.
  - subst h1. by rewrite lookup_insert_ne.
  - subst h1. by rewrite lookup_insert_eq.
  - apply not_elem_of_nil.
Qed.

(** The propagation loop. *)
Lemma unit_loop_sim iters (h : store) sf F t T r h' :
  is_formula h sf F → is_dict h t T →
  Heap.unit_loop iters sf t h = (r, h') →
  match unit_loop iters F T with
  | LoopDone F' T' => ∃ sf', r = Returned (Some sf') ∧ is_formula h' sf' F' ∧ is_dict h' t T'
  | LoopContradiction => r = Returned None
  | LoopOutOfFuel => r = OutOfFuel
  end.
Proof.
  revert h sf F T. induction iters as [|iters IH]; intros h sf F T HF HT; simpl.
  - by intros [= <- <-].
  - rewrite run_bind. unfold catch_TypeError. rewrite run_bind.
    destruct (Heap.simplify_with_unit_clauses sf t h) as [rs h1] eqn:Hrun.
    pose proof (simplify_sim _ _ _ _ _ _ _ HF HT Hrun) as Hsim.
    destruct (simplify_with_unit_clauses F T) as [[[F' u'] T']|].
    + destruct Hsim as (sf' & -> & HF' & HT'). simpl.
      destruct u'; [by apply IH|]. intros [= <- <-]. eauto.
    + subst rs. simpl. by intros [= <- <-].
Qed.

Lemma try_assignment_sim recurse recurse_pure iters (h : store) f F t T r h' :
  (∀ f F (h : store) r h', is_formula h f F → recurse f h = (r, h') →
                           sim_outcome (recurse_pure F) r h') →
  (∀ D f, framed D ∅ (recurse f) (fresh_result D)) →
  is_formula h f F → is_dict h t T →
  Heap.try_assignment recurse iters f t h = (r, h') →
  sim_outcome (try_assignment recurse_pure iters F T) r h'.
Proof.
  intros Hrec Hframe HF HT. unfold Heap.try_assignment, try_assignment.
  destruct HF as (cs & Hf & Hcs).
  rewrite (run_bind_val _ _ _ _ _ (run_read_list _ _ _ Hf)).
  rewrite (run_bind_val _ _ _ _ _ (run_alloc _ _)).
  set (sf := fresh (dom h)). set (h1 := <[sf := OList (VRef <$> cs)]> h).
  assert (h !! sf = None) as Hsfnone by apply fresh_lookup.
  assert (is_formula h1 sf F) as HF1.
  { exists cs. subst h1. rewrite lookup_insert_eq. split; [done|].
    apply is_clauses_insert; [done|]. by eapply fresh_not_clause. }
  assert (is_dict h1 t T) as HT1.
  { unfold is_dict in *. subst h1. rewrite lookup_insert_ne; [done|congruence]. }
  rewrite run_bind.
  destruct (Heap.unit_loop iters sf t h1) as [rl h2] eqn:Hloop.
  pose proof (unit_loop_sim _ _ _ _ _ _ _ _ HF1 HT1 Hloop) as Hsim.
  destruct (unit_loop iters F T) as [F' T'| |].
  - destruct Hsim as (sf' & -> & HF' & HT'). rewrite run_bind.
    destruct (recurse sf' h2) as [ra h3] eqn:Hrun.
    pose proof (Hrec _ _ _ _ _ HF' Hrun) as Hout.
    destruct (Hframe (dom h2) sf' h2 ra h3 ltac:(done) Hrun) as (_ & Hsame & Hfresh).
    destruct (recurse_pure F') as [[A|]| |]; simpl in Hout.
    + destruct Hout as (a & -> & Ha). intros Hupd.
      assert (a ∉ dom h2) as Hanew by (by apply (Hfresh (Some a))).
      assert (h3 !! t = Some (ODict T')) as Ht3.
      { rewrite Hsame; [done|by eapply elem_of_dom_2|set_solver]. }
      rewrite run_bind in Hupd. unfold dict_update_obj in Hupd.
      unfold is_dict in Ha. rewrite Ha, Ht3 in Hupd. simpl in Hupd.
      injection Hupd as <- <-. exists a. split; [done|].
      unfold is_dict. by rewrite lookup_insert_eq.
    + subst ra. by intros [= <- <-].
    + subst ra. by intros [= <- <-].
    + subst ra. by intros [= <- <-].
  - subst rl. by intros [= <- <-].
  - subst rl. by intros [= <- <-].
Qed.

Lemma try_polarities_sim try try_pure v vals (h : store) f F r h' :
  (∀ t T (h : store) r h', is_formula h f F → is_dict h t T →
                           try t h = (r, h') → sim_outcome (try_pure T) r h') →
  (∀ D X t, writable D X t → framed D X (try t) (fresh_result D)) →
  is_formula h f F →
  Heap.try_polarities try v vals h = (r, h') →
  sim_outcome (try_polarities try_pure v vals) r h'.
Proof.
  intros Htry Hframe. revert h. induction vals as [|val vals IH]; intros h HF; simpl.
  - by intros [= <- <-].
  - rewrite (run_bind_val _ _ _ _ _ (run_alloc _ _)).
    set (t := fresh (dom h)). set (h1 := <[t := ODict {[v := val]}]> h).
    assert (is_formula h1 f F) as HF1
      by (eapply is_formula_preserved; [done|apply lists_preserved_alloc]).
    assert (is_dict h1 t {[v := val]}) as HT1
      by (unfold is_dict; subst h1; by rewrite lookup_insert_eq).
    rewrite run_bind. destruct (try t h1) as [ra h2] eqn:Hrun.
    pose proof (Htry _ _ _ _ _ HF1 HT1 Hrun) as Hout.
    destruct (Hframe (dom h1) {[t]} t ltac:(left; set_solver) h1 ra h2
                ltac:(done) Hrun) as (_ & Hsame & _).
    destruct (try_pure {[v := val]}) as [[A|]| |]; simpl in Hout.
    + destruct Hout as (a & -> & Ha). intros [= <- <-]. simpl. eauto.
    + subst ra. apply IH. eapply is_formula_preserved; [done|].
      eapply lists_preserved_framed; [done|].
      intros l ->%elem_of_singleton. eauto.
    + subst ra. by intros [= <- <-].
    + subst ra. by intros [= <- <-].
Qed.

(** The search on the store returns what the pure search returns. *)
Lemma satisfying_assignment_sim depth iters (h : store) f F r h' :
  is_formula h f F →
  Heap.satisfying_assignment depth iters f h = (r, h') →
  sim_outcome (satisfying_assignment_fuel depth iters F) r h'.
Proof.
  revert h f F r h'. induction depth as [|depth IH]; intros h f F r h' HF;
    cbn [Heap.satisfying_assignment satisfying_assignment_fuel].
  - by intros [= <- <-].
  - pose proof HF as (cs & Hf & Hcs).
    rewrite (run_bind_val _ _ _ _ _ (run_read_list _ _ _ Hf)).
    destruct Hcs as [|c cl cs F Hc Hcs]; cbn [fmap list_fmap].
    + rewrite (run_bind_val _ _ _ _ _ (run_alloc _ _)). intros [= <- <-].
      exists (fresh (dom h)). split; [done|]. unfold is_dict. by rewrite lookup_insert_eq.
    + rewrite (run_bind_val _ _ _ _ _ (run_read_list _ _ _ Hc)).
      destruct cl as [|[v b] cl]; cbn [fmap list_fmap lit_val fst snd].
      * by intros [= <- <-].
      * apply (try_polarities_sim _ _ _ _ _ f (((v, b) :: cl) :: F)); [| |done].
        -- intros t T h0 r0 h0'. apply try_assignment_sim; [intros; by eapply IH|].
           intros D f0. apply framed_satisfying_assignment.
        -- intros D X t Ht. apply framed_try_assignment; [|done].
           intros f0. apply framed_satisfying_assignment.
Qed.

End simulation.

(** * The claims *)

(** C1. The search does not always return a satisfying dictionary or
    [None]: on a formula whose first clause is empty, here
    [[[], [('a', True)]]], line 81 raises [IndexError] and nothing is
    returned.  (On every call that does return a dictionary, the dictionary
    satisfies the formula: [satisfying_assignment_sound].) *)
Theorem satisfying_assignment_first_clause_empty_no_result :
  satisfying_assignment [[]; [("a", true)]] = Raised IndexError ∧
  ¬ (satisfying_assignment [[]; [("a", true)]] = Returned None ∨
     ∃ A, satisfying_assignment [[]; [("a", true)]] = Returned (Some A) ∧
          satisfies A [[]; [("a", true)]]).
Proof.
  split; [reflexivity|]. intros [H|(A & H & _)]; discriminate H.
Qed.

(** C2. Completeness: when the search returns [None], no total assignment
    of booleans to the variables satisfies every clause of the formula. *)
Theorem satisfying_assignment_None_unsatisfiable F :
  satisfying_assignment F = Returned None →
  ∀ σ : Var → bool, ¬ total_satisfies σ F.
Proof. intros H σ. by eapply satisfying_assignment_fuel_complete. Qed.

Lemma satisfying_assignment_None_unsatisfiable_witness :
  satisfying_assignment [[("a", true)]; [("a", false)]] = Returned None ∧
  ∀ σ : Var → bool, ¬ total_satisfies σ [[("a", true)]; [("a", false)]].
Proof.
  split; [vm_compute; reflexivity|].
  apply (satisfying_assignment_None_unsatisfiable [[("a", true)]; [("a", false)]]).
  vm_compute; reflexivity.
Defined.

(** C3. A formula whose first clause is empty does not make the search
    return [None]: [formula[0][0]] on line 81 raises [IndexError], whatever
    the other clauses are.  (An empty clause in any later position does give
    [None]: [satisfying_assignment_empty_clause_later].) *)
Theorem satisfying_assignment_empty_first_clause_raises rest :
  satisfying_assignment ([] :: rest) = Raised IndexError.
Proof. reflexivity. Qed.

(** C4. One call of [simplify_with_unit_clauses] computes exactly the
    clause-by-clause description [propagate_spec]: a clause with a matching
    literal is dropped; otherwise the non-matching literals are omitted and
    the call returns [None] at once when nothing remains, assigns the
    variable and sets the unit flag when one literal remains, and appends
    the clause when two or more remain. *)
Theorem simplify_with_unit_clauses_refines_spec F A :
  simplify_with_unit_clauses F A = propagate_spec F A.
Proof.
  unfold simplify_with_unit_clauses. rewrite simplify_loop_spec.
  destruct (propagate_spec F A) as [[[F' u'] A']|]; simpl; [|reflexivity].
  reflexivity.
Qed.

(** C5, as stated, fails: the output of a pass that found a unit clause
    need not be stable.  On [[[('a', True), ('b', True)], [('a', True)]]]
    with the empty dictionary the pass returns the first clause and flag
    [True], and a second pass with the dictionary [{a: True}] drops it. *)
Lemma simplify_with_unit_clauses_not_idempotent :
  ¬ (∀ F A F' u A',
       simplify_with_unit_clauses F A = Some (F', u, A') →
       ∃ A'', simplify_with_unit_clauses F' A' = Some (F', false, A'')).
Proof.
  intros H.
  destruct (H [[("a", true); ("b", true)]; [("a", true)]] ∅
              [[("a", true); ("b", true)]] true {["a" := true]})
    as [A'' HA]; [vm_compute; reflexivity|].
  vm_compute in HA. discriminate HA.
Qed.

(** C5, amended. When a pass reports no unit clause, running it again on
    its output with the same dictionary returns the same clause list, again
    reports no unit clause, and leaves the dictionary unchanged. *)
Theorem simplify_with_unit_clauses_idempotent_no_unit F A F' A' :
  simplify_with_unit_clauses F A = Some (F', false, A') →
  simplify_with_unit_clauses F' A' = Some (F', false, A').
Proof. intros H. by apply simplify_no_unit_fixpoint in H as (_ & _ & ?). Qed.

Lemma simplify_with_unit_clauses_idempotent_no_unit_witness :
  let F' := [[("b", true); ("c", true)]; [("d", false); ("e", true); ("g", true)]] in
  simplify_with_unit_clauses F' {["a" := false]} = Some (F', false, {["a" := false]}).
Proof.
  apply (simplify_with_unit_clauses_idempotent_no_unit doctest_cnf {["a" := false]}).
  vm_compute; reflexivity.
Defined.



(** C7. The search terminates on every formula.  Recursion deeper than
    the number of distinct variables never happens: any [depth] and [iters]
    above [num_vars F] give one and the same outcome, which is not
    [OutOfFuel].  The formula handed to a recursive call has strictly fewer
    distinct variables than the caller's: the branching variable is in the
    dictionary by then, and no variable of the dictionary occurs in the
    residual formula.  The propagation loop terminates: an iteration that
    reports a unit clause extends the dictionary by a variable that was
    unassigned, so more iterations than unassigned variables are never
    needed. *)
Theorem satisfying_assignment_terminates F :
  (∃ r, r ≠ OutOfFuel ∧
        ∀ depth iters, num_vars F < depth → num_vars F < iters →
                       satisfying_assignment_fuel depth iters F = r) ∧
  (∀ v b cl rest val iters F' T',
     F = ((v, b) :: cl) :: rest →
     unit_loop iters F {[v := val]} = LoopDone F' T' →
     v ∈ dom T' ∧ formula_vars F' ⊆ formula_vars F ∖ dom T' ∧
     num_vars F' < num_vars F) ∧
  (∀ A : assignment,
     (∀ F' A', simplify_with_unit_clauses F A = Some (F', true, A') →
               A ⊆ A' ∧ ∃ v, A !! v = None ∧ is_Some (A' !! v)) ∧
     (∀ iters, unassigned_vars F A < iters → unit_loop iters F A ≠ LoopOutOfFuel)).
Proof.
  split_and!.
  - exists (satisfying_assignment F). split.
    + apply satisfying_assignment_not_OutOfFuel.
    + intros depth iters. apply satisfying_assignment_fuel_eq.
  - intros v b cl rest val iters F' T' -> Hloop.
    pose proof (first_literal_var v b cl rest) as Hv.
    pose proof (unit_loop_fewer_vars _ _ _ _ _ _ Hv Hloop).
    apply unit_loop_post in Hloop as [Hsub _ Hvars _ _].
    apply subseteq_dom in Hsub. rewrite dom_singleton in Hsub.
    split_and!; [set_solver|done|done].
  - intros A. split.
    + intros F' A' Hs%simplify_pass. split; [by eapply pass_subseteq|].
      destruct (pass_unit_progress _ _ _ _ Hs) as (v & _ & ? & ?). eauto.
    + intros iters. apply unit_loop_enough.
Qed.

Lemma satisfying_assignment_terminates_witness :
  satisfying_assignment_fuel 9 9 doctest_cnf
  = satisfying_assignment_fuel 20 30 doctest_cnf.
Proof.
  destruct (satisfying_assignment_terminates doctest_cnf) as [(r & _ & Hr) _].
  rewrite (Hr 9 9), (Hr 20 30); [reflexivity|vm_compute; lia..].
Defined.

(** C8, as stated, fails: after a pass that found a unit clause, the
    output can mention a variable that the pass itself assigned.  On
    [[[('a', True), ('b', True)], [('a', True)]]] with the empty dictionary,
    the output keeps the first clause while the dictionary ends as
    [{a: True}]. *)
Lemma simplify_output_mentions_assigned_variable :
  ¬ (∀ F A F' u A',
       simplify_with_unit_clauses F A = Some (F', u, A') →
       ∀ v, v ∈ formula_vars F' → A' !! v = None).
Proof.
  intros H.
  assert (({["a" := true]} : assignment) !! "a" = None) as Hnone.
  { apply (H [[("a", true); ("b", true)]; [("a", true)]] ∅
             [[("a", true); ("b", true)]] true).
    - vm_compute; reflexivity.
    - apply first_literal_var. }
  vm_compute in Hnone. discriminate Hnone.
Qed.

(** C8, amended. Every variable of the output of a pass is absent from
    the dictionary as it was before the pass, and, when the pass reports
    no unit clause, from the dictionary after the pass as well.  The loop of
    [try_assignment] ends only after such a pass, so the keys of the
    dictionary returned by the recursive call are disjoint from the keys of
    [temp_assignment], and the update keeps every binding of the recursive
    result. *)
Theorem merge_keys_disjoint :
  (∀ F A F' u A',
     simplify_with_unit_clauses F A = Some (F', u, A') →
     ∀ v, v ∈ formula_vars F' → A !! v = None ∧ (u = false → A' !! v = None)) ∧
  (∀ iters F temp F' temp' A,
     unit_loop iters F temp = LoopDone F' temp' →
     satisfying_assignment F' = Returned (Some A) →
     dom A ## dom temp' ∧
     ∀ v b, A !! v = Some b → dict_update A temp' !! v = Some b).
Proof.
  split.
  - intros F A F' u A' Hs v Hv. split.
    + apply simplify_pass, pass_vars in Hs. apply not_elem_of_dom. set_solver.
    + intros ->. apply simplify_no_unit_fixpoint in Hs as (_ & Hun & _). auto.
  - intros iters F temp F' temp' A [_ _ Hvars _ _]%unit_loop_post
      [_ Hdom]%satisfying_assignment_fuel_sound.
    assert (dom A ## dom temp') as Hdisj by set_solver.
    split; [done|]. intros v b Hv. unfold dict_update.
    rewrite lookup_union_r; [done|].
    apply not_elem_of_dom. apply (elem_of_dom_2 (D := gset string)) in Hv. set_solver.
Qed.

Lemma merge_keys_disjoint_witness :
  dom ({["c" := true]} : assignment) ## dom ({["a" := false; "b" := true]} : assignment).
Proof.
  destruct merge_keys_disjoint as [_ H].
  apply (H 3 [[("a", true); ("b", true)]; [("c", true); ("d", true)]]
           {["a" := false]} [[("c", true); ("d", true)]]).
  - vm_compute; reflexivity.
  - vm_compute; reflexivity.
Defined.

(** C9. Neither function mutates the formula or any of its clauses.
    On the object store, a call of [simplify_with_unit_clauses] leaves every
    object that existed before the call as it was, the [assignments]
    dictionary excepted; a call of [satisfying_assignment] leaves every
    object that existed before the call as it was, whatever the outcome:
    what the calls write to are the lists and dictionaries they create
    themselves.  The [assignments] dictionary is mutated: the docstring
    example adds [f] to it. *)
Theorem formula_objects_not_mutated :
  (∀ formula assignments (h : store) r h',
     Heap.simplify_with_unit_clauses formula assignments h = (r, h') →
     ∀ l, l ∈ dom h → l ≠ assignments → h' !! l = h !! l) ∧
  (∀ depth iters formula (h : store) r h',
     Heap.satisfying_assignment depth iters formula h = (r, h') →
     ∀ l, l ∈ dom h → h' !! l = h !! l) ∧
  (Heap.simplify_with_unit_clauses 0 5 doctest_store).2 !! 5
    = Some (ODict {["a" := true; "f" := true]}).
Proof.
  split_and!.
  - intros formula assignments h r h' Hrun l Hl Hne.
    destruct (framed_simplify (dom h) {[assignments]} formula assignments
                ltac:(left; set_solver) h r h' ltac:(done) Hrun) as (_ & Hsame & _).
    apply Hsame; set_solver.
  - intros depth iters formula h r h' Hrun l Hl.
    destruct (framed_satisfying_assignment (dom h) ∅ depth iters formula
                h r h' ltac:(done) Hrun) as (_ & Hsame & _).
    apply Hsame; set_solver.
  - vm_compute. reflexivity.
Qed.

Lemma formula_objects_not_mutated_witness :
  (Heap.satisfying_assignment 9 9 0 doctest_store).2 !! 1
  = Some (OList [VTuple "a" true; VTuple "b" true; VTuple "c" true]).
Proof.
  destruct formula_objects_not_mutated as (_ & H & _).
  rewrite (H 9 9 0 doctest_store (Heap.satisfying_assignment 9 9 0 doctest_store).1
             (Heap.satisfying_assignment 9 9 0 doctest_store).2).
  - vm_compute. reflexivity.
  - symmetry. apply surjective_pairing.
  - apply elem_of_dom. vm_compute. eexists. reflexivity.
Defined.

(** C10. Every key of a returned dictionary is a variable that occurs in
    some literal of some clause of the formula. *)
Theorem satisfying_assignment_keys_in_formula F A :
  satisfying_assignment F = Returned (Some A) →
  ∀ v, is_Some (A !! v) → ∃ cl b, cl ∈ F ∧ (v, b) ∈ cl.
Proof.
  intros [_ Hdom]%satisfying_assignment_fuel_sound v Hv.
  apply elem_of_formula_vars, Hdom. by apply elem_of_dom.
Qed.

Lemma satisfying_assignment_keys_in_formula_witness :
  ∃ cl b, cl ∈ [[("a", false); ("b", true)]; [("b", false); ("a", true)]] ∧
          ("b", b) ∈ cl.
Proof.
  apply (satisfying_assignment_keys_in_formula
           [[("a", false); ("b", true)]; [("b", false); ("a", true)]]
           {["a" := false; "b" := false]}).
  - vm_compute; reflexivity.
  - vm_compute. eexists; reflexivity.
Defined.

(** * The encoder: lemmas *)

Section combos.
Context {A : Type}.
Implicit Types (elts prev c : list A) (k : Z).

Lemma get_combos_unfold elts k prev :
  get_combos elts k prev =
  if bool_decide (Z.of_nat (length prev) = k) then [prev]
  else combos_loop k prev elts [].
Proof. destruct elts; reflexivity. Qed.

Lemma sublists_of_length_0 (l : list A) : sublists_of_length 0 l = [[]].
Proof. by destruct l. Qed.

Lemma sublists_of_length_nil (m : nat) :
  sublists_of_length m (@nil A) = if decide (m = 0) then [[]] else [].
Proof. by destruct m. Qed.

Lemma elem_of_sublists_of_length (m : nat) l c :
  c ∈ sublists_of_length m l ↔ c `sublist_of` l ∧ length c = m.
Proof.
  revert m c. induction l as [|x xs IH]; intros m c.
  - rewrite sublists_of_length_nil, sublist_nil_r. destruct m; simpl.
    + rewrite list_elem_of_singleton. naive_solver.
    + rewrite elem_of_nil. split; [done|]. by intros [-> ?].
  - destruct m as [|m]; simpl.
    + rewrite list_elem_of_singleton. split.
      * intros ->. split; [apply sublist_nil_l|done].
      * intros [_ ?]. by destruct c.
    + rewrite elem_of_app, list_elem_of_fmap, sublist_cons_r. setoid_rewrite IH.
      split.
      * intros [(c' & -> & Hsub & <-)|[Hsub Hlen]]; [|by auto].
        split; [|done]. right. eauto.
      * intros [[Hsub|(c' & -> & Hsub)] Hlen]; [by right|].
        left. exists c'. simpl in Hlen. split_and!; [done..|lia].
Qed.

Lemma combos_spec_exact elts k prev :
  Z.of_nat (length prev) = k → combos_spec elts k prev = [prev].
Proof.
  intros <-. unfold combos_spec. rewrite decide_True by lia.
  rewrite Z.sub_diag. change (Z.to_nat 0) with 0.
  rewrite sublists_of_length_0. cbn [fmap list_fmap]. by rewrite app_nil_r.
Qed.

Lemma get_combos_combos_spec elts k prev :
  get_combos elts k prev = combos_spec elts k prev.
Proof.
  remember (length elts) as n eqn:Hn.
  assert (length elts ≤ n) as Hle by lia. clear Hn.
  revert elts prev Hle. induction n as [|n IH]; intros elts prev Hle.
  - destruct elts; [|simpl in Hle; lia].
    rewrite get_combos_unfold.
    change (combos_loop k prev [] []) with (@nil (list A)).
    case_bool_decide as Heq; [by rewrite combos_spec_exact|].
    unfold combos_spec.
    + case_decide; [|done].
      rewrite sublists_of_length_nil, decide_False by lia. done.
  - rewrite get_combos_unfold.
    case_bool_decide as Heq; [by rewrite combos_spec_exact|].
    + assert (∀ l combos, length l ≤ S n →
                combos_loop k prev l combos = combos ++ combos_spec l k prev) as Hloop.
      { clear elts Hle. intros l. induction l as [|x xs IHl]; intros combos Hlen.
        - simpl. unfold combos_spec. case_decide; [|by rewrite app_nil_r].
          rewrite sublists_of_length_nil, decide_False by lia.
          by rewrite app_nil_r.
        - simpl in Hlen. cbn [combos_loop]. fold (combos_loop k prev).
          rewrite IHl by lia. rewrite IH by lia.
          rewrite <- app_assoc. f_equal. unfold combos_spec.
          rewrite length_app. simpl.
          destruct (decide (Z.of_nat (length prev) ≤ k)%Z) as [Hprev|Hprev].
          + assert (Z.to_nat (k - Z.of_nat (length prev))
                    = S (Z.to_nat (k - Z.of_nat (length prev + 1)))) as -> by lia.
            rewrite decide_True by lia. simpl.
            rewrite fmap_app, <- list_fmap_compose. f_equal.
            apply list_fmap_ext. intros _ c _. simpl. by rewrite <- app_assoc.
          + rewrite decide_False by lia. done. }
      rewrite Hloop by done. done.
Qed.

Lemma elem_of_get_combos elts k prev c :
  c ∈ get_combos elts k prev ↔
  ∃ c', c = prev ++ c' ∧ c' `sublist_of` elts ∧
        (Z.of_nat (length prev + length c') = k)%Z.
Proof.
  rewrite get_combos_combos_spec. unfold combos_spec. case_decide as Hle.
  - rewrite list_elem_of_fmap. setoid_rewrite elem_of_sublists_of_length.
    split; intros (c' & -> & Hsub & Hlen); exists c'; split_and!; try done; lia.
  - rewrite elem_of_nil. split; [done|]. intros (c' & _ & _ & Hlen). lia.
Qed.

Lemma NoDup_sublists_of_length (m : nat) (l : list A) :
  NoDup l → NoDup (sublists_of_length m l).
Proof.
  revert m. induction l as [|x xs IH]; intros m Hnd.
  - rewrite sublists_of_length_nil. case_decide; [apply NoDup_singleton|constructor].
  - apply NoDup_cons in Hnd as [Hx Hnd]. destruct m as [|m]; simpl.
    + apply NoDup_singleton.
    + apply NoDup_app. split_and!.
      * apply NoDup_fmap_2; [|by apply IH]. by intros ?? [= ->].
      * intros c (c' & -> & _)%list_elem_of_fmap [Hsub _]%elem_of_sublists_of_length.
        apply Hx. apply (sublist_subseteq _ _ Hsub). apply list_elem_of_here.
      * by apply IH.
Qed.

End combos.

(** Counting the combinations. *)

Lemma sublists_of_length_too_long {A} (k : nat) (l : list A) :
  length l < k → sublists_of_length k l = [].
Proof.
  intros Hlt. apply elem_of_nil_inv.
  intros c [Hsub Hlen]%elem_of_sublists_of_length.
  apply sublist_length in Hsub. lia.
Qed.

Lemma length_sublists_of_length {A} (l : list A) :
  ∀ k, k ≤ length l →
    length (sublists_of_length k l) * fact k * fact (length l - k) = fact (length l).
Proof.
  induction l as [|x xs IH]; intros k Hk.
  - simpl in Hk. assert (k = 0) as -> by lia. reflexivity.
  - destruct k as [|k].
    + rewrite sublists_of_length_0. simpl length. rewrite Nat.sub_0_r.
      change (fact 0) with 1. lia.
    + cbn [sublists_of_length]. rewrite length_app, length_fmap.
      simpl in Hk. cbn [length]. rewrite Nat.sub_succ.
      pose proof (IH k ltac:(lia)) as IH1.
      set (a := length (sublists_of_length k xs)) in *.
      set (m := length xs) in *.
      destruct (decide (S k ≤ m)) as [Hle|Hgt].
      * pose proof (IH (S k) Hle) as IH2. fold m in IH2.
        set (b := length (sublists_of_length (S k) xs)) in *.
        assert (m - k = S (m - S k)) as E by lia. rewrite E in *.
        change (fact (S (m - S k))) with (S (m - S k) * fact (m - S k)) in *.
        change (fact (S k)) with (S k * fact k) in *.
        change (fact (S m)) with (S m * fact m).
        set (p := fact k) in *. set (q := fact (m - S k)) in *. set (r := fact m) in *.
        assert (S (m - S k) + S k = S m) as E2 by lia.
        set (d := S (m - S k)) in *. set (e := S k) in *.
        rewrite <- E2. nia.
      * assert (k = m) as -> by lia.
        rewrite (sublists_of_length_too_long (S m) xs) by (fold m; lia).
        simpl length. rewrite Nat.sub_diag in *. change (fact 0) with 1 in *.
        change (fact (S m)) with (S m * fact m) in *. nia.
Qed.


Section encoder.
Implicit Types (σ : Var → bool) (sp : list (string * list string))
  (rc : list (string * Z)).

Lemma get_preferences_sessions_fmap student sessions acc :
  get_preferences_sessions student sessions acc
  = acc ++ preference_clause (student, sessions).
Proof.
  unfold preference_clause. simpl.
  revert acc. induction sessions as [|session rest IH]; intros acc; simpl.
  - by rewrite app_nil_r.
  - by rewrite IH, <- app_assoc.
Qed.

Lemma get_preferences_loop_fmap sp acc :
  get_preferences_loop sp acc = acc ++ (preference_clause <$> sp).
Proof.
  revert acc. induction sp as [|[student sessions] rest IH]; intros acc; simpl.
  - by rewrite app_nil_r.
  - rewrite IH, get_preferences_sessions_fmap, <- app_assoc. done.
Qed.

Lemma get_preferences_fmap sp : get_preferences sp = preference_clause <$> sp.
Proof. unfold get_preferences. by rewrite get_preferences_loop_fmap. Qed.

Lemma max_one_combos_fmap student sess_combos acc :
  max_one_combos student sess_combos acc
  = acc ++ (forbid_sessions student <$> sess_combos).
Proof.
  revert acc. induction sess_combos as [|combo rest IH]; intros acc; simpl.
  - by rewrite app_nil_r.
  - by rewrite IH, <- app_assoc.
Qed.

Lemma max_one_students_bind students sess_combos acc :
  max_one_students students sess_combos acc
  = acc ++ (students ≫= λ student, forbid_sessions student <$> sess_combos).
Proof.
  revert acc. induction students as [|student rest IH]; intros acc; simpl.
  - by rewrite app_nil_r.
  - by rewrite IH, max_one_combos_fmap, <- app_assoc.
Qed.

Lemma oversubscribed_combos_fmap session student_combos acc :
  oversubscribed_combos session student_combos acc
  = acc ++ (forbid_students session <$> student_combos).
Proof.
  revert acc. induction student_combos as [|combo rest IH]; intros acc; simpl.
  - by rewrite app_nil_r.
  - by rewrite IH, <- app_assoc.
Qed.

Lemma oversubscribed_sessions_bind students items acc :
  oversubscribed_sessions students items acc
  = acc ++ (items ≫= room_clauses students).
Proof.
  revert acc. induction items as [|[session capacity] rest IH]; intros acc.
  - simpl. by rewrite app_nil_r.
  - cbn [oversubscribed_sessions]. rewrite bind_cons.
    assert (room_clauses students (session, capacity)
            = if bool_decide (Z.of_nat (length students) > capacity)%Z
              then forbid_students session <$> get_combos students (capacity + 1) []
              else []) as -> by reflexivity.
    case_bool_decide.
    + rewrite IH, oversubscribed_combos_fmap, <- app_assoc. done.
    + by rewrite IH.
Qed.

Lemma total_satisfies_app σ F1 F2 :
  total_satisfies σ (F1 ++ F2) ↔ total_satisfies σ F1 ∧ total_satisfies σ F2.
Proof.
  unfold total_satisfies. setoid_rewrite elem_of_app. naive_solver.
Qed.

Lemma singleton_sublist {X} (x : X) (l : list X) : x ∈ l → [x] `sublist_of` l.
Proof.
  induction l as [|z l IH]; intros Hx; [by apply elem_of_nil in Hx|].
  apply elem_of_cons in Hx as [->|Hx].
  - apply sublist_skip, sublist_nil_l.
  - by apply sublist_cons, IH.
Qed.

Lemma pair_sublist {X} (x y : X) (l : list X) :
  x ∈ l → y ∈ l → x ≠ y → [x; y] `sublist_of` l ∨ [y; x] `sublist_of` l.
Proof.
  induction l as [|z l IH]; intros Hx Hy Hne; [by apply elem_of_nil in Hx|].
  apply elem_of_cons in Hx as [->|Hx]; apply elem_of_cons in Hy as [->|Hy].
  - done.
  - left. apply sublist_skip. by apply singleton_sublist.
  - right. apply sublist_skip. by apply singleton_sublist.
  - destruct (IH Hx Hy Hne); [left|right]; by apply sublist_cons.
Qed.

Lemma sublist_all_length {X} (P : X → Prop) `{!∀ x, Decision (P x)}
    (c l : list X) :
  c `sublist_of` l → Forall P c → length c ≤ length (filter P l).
Proof.
  induction 1 as [|x c l Hsub IH|x c l Hsub IH]; intros Hall.
  - simpl. lia.
  - apply Forall_cons in Hall as [Hx Hall].
    rewrite filter_cons_True by done. simpl. specialize (IH Hall). lia.
  - specialize (IH Hall). destruct (decide (P x)).
    + rewrite filter_cons_True by done. simpl. lia.
    + by rewrite filter_cons_False.
Qed.

(** Rule 1: every student sits in one of the sessions they accept. *)
Lemma satisfies_get_preferences σ sp :
  total_satisfies σ (get_preferences sp) ↔
  ∀ student sessions, (student, sessions) ∈ sp →
    ∃ session, session ∈ sessions ∧ schedule_of σ student session = true.
Proof.
  rewrite get_preferences_fmap. unfold total_satisfies, schedule_of. split.
  - intros Hsat student sessions Hin.
    destruct (Hsat (preference_clause (student, sessions))) as (v & b & Hvb & Hσ).
    { apply list_elem_of_fmap. eauto. }
    apply list_elem_of_fmap in Hvb as (session & [= -> ->] & Hsession). eauto.
  - intros Hval cl ([student sessions] & -> & Hin)%list_elem_of_fmap.
    destruct (Hval _ _ Hin) as (session & Hsession & Hσ).
    exists (var_name student session), true. split; [|done].
    apply list_elem_of_fmap. eauto.
Qed.

Lemma elem_of_get_max_one_session sp rc cl :
  cl ∈ get_max_one_session sp rc ↔
  ∃ student session1 session2,
    student ∈ sp.*1 ∧ [session1; session2] `sublist_of` rc.*1 ∧
    cl = forbid_sessions student [session1; session2].
Proof.
  unfold get_max_one_session. rewrite max_one_students_bind, app_nil_l.
  rewrite list_elem_of_bind. split.
  - intros (student & (combo & -> & Hcombo)%list_elem_of_fmap & Hstudent).
    apply elem_of_get_combos in Hcombo as (c' & -> & Hsub & Hlen).
    simpl in Hlen. destruct c' as [|s1 [|s2 [|]]]; simpl in Hlen; try lia.
    exists student, s1, s2. done.
  - intros (student & s1 & s2 & Hstudent & Hsub & ->).
    exists student. split; [|done]. apply list_elem_of_fmap.
    exists [s1; s2]. split; [done|]. apply elem_of_get_combos.
    exists [s1; s2]. done.
Qed.

(** Rule 2: no student sits in two sessions. *)
Lemma satisfies_get_max_one_session_1 σ sp rc :
  total_satisfies σ (get_max_one_session sp rc) →
  ∀ student session1 session2,
    student ∈ sp.*1 → session1 ∈ rc.*1 → session2 ∈ rc.*1 → session1 ≠ session2 →
    ¬ (schedule_of σ student session1 = true ∧ schedule_of σ student session2 = true).
Proof.
  intros Hsat student s1 s2 Hstudent H1 H2 Hne [Hσ1 Hσ2]. unfold schedule_of in *.
  assert (∀ a b, [a; b] `sublist_of` rc.*1 →
            σ (var_name student a) = true → σ (var_name student b) = true → False)
    as Hpair.
  { intros a b Hsub Ha Hb.
    destruct (Hsat (forbid_sessions student [a; b])) as (v & bv & Hvb & Hσ).
    { apply elem_of_get_max_one_session. by exists student, a, b. }
    unfold forbid_sessions in Hvb. simpl in Hvb.
    apply elem_of_cons in Hvb as [[= -> ->]|Hvb]; [congruence|].
    apply list_elem_of_singleton in Hvb as [= -> ->]. congruence. }
  destruct (pair_sublist s1 s2 _ H1 H2 Hne); eauto.
Qed.

Lemma satisfies_get_max_one_session_2 σ sp rc :
  NoDup rc.*1 →
  (∀ student session1 session2,
    student ∈ sp.*1 → session1 ∈ rc.*1 → session2 ∈ rc.*1 → session1 ≠ session2 →
    ¬ (schedule_of σ student session1 = true ∧ schedule_of σ student session2 = true)) →
  total_satisfies σ (get_max_one_session sp rc).
Proof.
  intros Hnd Hval cl (student & s1 & s2 & Hstudent & Hsub & ->)%elem_of_get_max_one_session.
  pose proof (sublist_NoDup _ _ Hnd Hsub) as Hnd2.
  pose proof (sublist_subseteq _ _ Hsub) as Hin.
  assert (s1 ≠ s2) as Hne.
  { intros ->. apply NoDup_cons in Hnd2 as [Hnot _]. apply Hnot, list_elem_of_here. }
  unfold schedule_of in Hval.
  destruct (σ (var_name student s1)) eqn:E1.
  - destruct (σ (var_name student s2)) eqn:E2.
    + exfalso. apply (Hval student s1 s2); try done.
      * apply Hin, list_elem_of_here.
      * apply Hin, list_elem_of_further, list_elem_of_here.
    + exists (var_name student s2), false. split; [|done].
      unfold forbid_sessions. simpl. apply list_elem_of_further, list_elem_of_here.
  - exists (var_name student s1), false. split; [|done].
    unfold forbid_sessions. simpl. apply list_elem_of_here.
Qed.

Lemma elem_of_get_oversubscribed sp rc cl :
  cl ∈ get_oversubscribed sp rc ↔
  ∃ session capacity combo,
    (session, capacity) ∈ rc ∧ (Z.of_nat (length sp.*1) > capacity)%Z ∧
    combo `sublist_of` sp.*1 ∧ (Z.of_nat (length combo) = capacity + 1)%Z ∧
    cl = forbid_students session combo.
Proof.
  unfold get_oversubscribed. rewrite oversubscribed_sessions_bind, app_nil_l.
  rewrite list_elem_of_bind. split.
  - intros ([session capacity] & Hcl & Hitem). unfold room_clauses in Hcl.
    simpl in Hcl. case_bool_decide; [|by apply elem_of_nil in Hcl].
    apply list_elem_of_fmap in Hcl as (combo & -> & Hcombo).
    apply elem_of_get_combos in Hcombo as (c' & -> & Hsub & Hlen).
    exists session, capacity, c'. simpl in *. split_and!; try done.
  - intros (session & capacity & combo & Hitem & Hgt & Hsub & Hlen & ->).
    exists (session, capacity). split; [|done]. unfold room_clauses. simpl.
    rewrite bool_decide_true by done. apply list_elem_of_fmap.
    exists combo. split; [done|]. apply elem_of_get_combos. exists combo. done.
Qed.

(** Rule 3: no session holds more students than its capacity.  A
    capacity below -1 puts no bound on the session: [get_combos] has
    nothing to enumerate for a negative length. *)
Lemma satisfies_get_oversubscribed σ sp rc :
  total_satisfies σ (get_oversubscribed sp rc) ↔
  ∀ session capacity, (session, capacity) ∈ rc → (-1 ≤ capacity)%Z →
    (Z.of_nat (occupancy (schedule_of σ) sp.*1 session) ≤ capacity)%Z.
Proof.
  unfold occupancy, schedule_of. split.
  - intros Hsat session capacity Hitem Hcap.
    set (P := λ student, σ (var_name student session) = true).
    destruct (decide (Z.of_nat (length (filter P sp.*1)) ≤ capacity)%Z) as [|Hgt];
      [done|exfalso].
    set (combo := take (Z.to_nat (capacity + 1)) (filter P sp.*1)).
    assert (length combo = Z.to_nat (capacity + 1)) as Hlen
      by (subst combo; rewrite length_take; lia).
    assert (combo `sublist_of` sp.*1) as Hsub.
    { etrans; [apply sublist_take|apply sublist_filter]. }
    pose proof (length_filter P sp.*1) as Hle.
    destruct (Hsat (forbid_students session combo)) as (v & b & Hvb & Hσ).
    { apply elem_of_get_oversubscribed. exists session, capacity, combo.
      split_and!; try done; lia. }
    apply list_elem_of_fmap in Hvb as (student & [= -> ->] & Hstudent).
    assert (student ∈ filter P sp.*1) as Hin.
    { subst combo. by eapply (sublist_subseteq _ _ (sublist_take _ _)). }
    apply list_elem_of_filter in Hin as [HP _]. unfold P in HP. congruence.
  - intros Hval cl (session & capacity & combo & Hitem & Hgt & Hsub & Hlen & ->)%elem_of_get_oversubscribed.
    specialize (Hval session capacity Hitem ltac:(lia)).
    set (P := λ student, σ (var_name student session) = true) in *.
    destruct (decide (Forall P combo)) as [Hall|Hnot].
    + pose proof (sublist_all_length P combo sp.*1 Hsub Hall). lia.
    + apply not_Forall_Exists in Hnot; [|apply _].
      apply Exists_exists in Hnot as (student & Hstudent & HnP).
      exists (var_name student session), false. split.
      * apply list_elem_of_fmap. eauto.
      * unfold P in HnP. simpl in HnP. by destruct (σ (var_name student session)).
Qed.

(** The formula as a whole. *)
Lemma boolify_valid_schedule σ sp rc :
  (∀ session capacity, (session, capacity) ∈ rc → (-1 ≤ capacity)%Z) →
  total_satisfies σ (boolify_scheduling_problem sp rc) →
  valid_schedule sp rc (schedule_of σ).
Proof.
  intros Hcap. unfold boolify_scheduling_problem.
  rewrite !total_satisfies_app. intros ((H1 & H2) & H3). split.
  - by apply satisfies_get_preferences.
  - by apply satisfies_get_max_one_session_1.
  - intros session capacity Hitem.
    apply (proj1 (satisfies_get_oversubscribed σ sp rc) H3); [done|by eapply Hcap].
Qed.

Lemma valid_schedule_boolify σ sp rc :
  NoDup rc.*1 →
  valid_schedule sp rc (schedule_of σ) →
  total_satisfies σ (boolify_scheduling_problem sp rc).
Proof.
  intros Hnd [H1 H2 H3]. unfold boolify_scheduling_problem.
  rewrite !total_satisfies_app. split_and!.
  - by apply satisfies_get_preferences.
  - by apply satisfies_get_max_one_session_2.
  - apply satisfies_get_oversubscribed. auto.
Qed.

End encoder.

Section names.

Lemma split_var_name student session :
  no_underscore student = true →
  split_name (var_name student session) = Some (student, session).
Proof.
  unfold var_name. induction student as [|c student IH]; simpl; [done|].
  destruct (Ascii.eqb c underscore); [done|]. intros Hno.
  by rewrite IH.
Qed.




Lemma satisfies_completion A F : satisfies A F → total_satisfies (completion A) F.
Proof.
  intros Hsat cl Hcl. destruct (Hsat cl Hcl) as (v & b & Hvb & Hv).
  exists v, b. split; [done|]. unfold completion. by rewrite Hv.
Qed.

End names.

(** * Further properties of the solver *)

Section solver_extras.

(** The two trials of a call, spelled out. *)
Lemma satisfying_assignment_trials v b cl rest :
  let F := ((v, b) :: cl) :: rest in
  let trial val :=
    try_assignment satisfying_assignment (S (num_vars F)) F {[v := val]} in
  satisfying_assignment F =
  match trial b with
  | Returned None =>
      match trial (negb b) with Returned None => Returned None | r => r end
  | r => r
  end.
Proof.
  intros F trial. pose proof (first_literal_var v b cl rest) as Hv.
  subst trial F. cbv beta. unfold satisfying_assignment at 1.
  cbn [satisfying_assignment_fuel try_polarities].
  by rewrite !try_assignment_fuel_free.
Qed.

(** A trial that finds a dictionary keeps its seed in it. *)
Lemma try_assignment_keeps_seed recurse iters F v val A :
  try_assignment recurse iters F {[v := val]} = Returned (Some A) →
  A !! v = Some val.
Proof.
  intros (F' & T' & A0 & Hloop & _ & ->)%try_assignment_Some.
  apply unit_loop_post in Hloop as [Hsub _ _ _ _].
  unfold dict_update. apply lookup_union_Some_l.
  eapply lookup_weaken; [|done]. apply lookup_singleton_eq.
Qed.

(** A trial that fails rules out every model that agrees with its seed. *)
Lemma try_assignment_None_no_model iters F v val σ :
  try_assignment satisfying_assignment iters F {[v := val]} = Returned None →
  σ v = val → ¬ total_satisfies σ F.
Proof.
  intros Htry Hσ Hsat.
  assert (agrees σ {[v := val]}) as Hag.
  { intros v' b' [<- <-]%lookup_singleton_Some. done. }
  destruct (unit_loop_complete σ iters _ _ Hag Hsat) as [Hnc Hdone].
  apply try_assignment_None in Htry as [?|(F' & T' & Hloop & Hrec)]; [done|].
  destruct (Hdone _ _ Hloop) as [_ Hsat'].
  by eapply satisfying_assignment_fuel_complete.
Qed.

(** Output clauses keep the order of the literals of the input clause. *)
Lemma pass_output_sublist F A F' u A' :
  pass F A F' u A' →
  ∀ cl', cl' ∈ F' → ∃ cl, cl ∈ F ∧ cl' `sublist_of` cl.
Proof.
  induction 1 as [|cl rest A F' u A' Hm H IH|cl rest A v b F' u A' Hno Hrem H IH
                  |cl rest A F' u A' Hno Hlen H IH]; intros cl' Hcl'.
  - by apply elem_of_nil in Hcl'.
  - destruct (IH _ Hcl') as (cl0 & ? & ?). exists cl0.
    split; [by apply list_elem_of_further|done].
  - destruct (IH _ Hcl') as (cl0 & ? & ?). exists cl0.
    split; [by apply list_elem_of_further|done].
  - apply elem_of_cons in Hcl' as [->|Hcl'].
    + exists cl. split; [apply list_elem_of_here|]. apply sublist_filter.
    + destruct (IH _ Hcl') as (cl0 & ? & ?). exists cl0.
      split; [by apply list_elem_of_further|done].
Qed.

(** The loop stops on a formula that a further pass leaves alone. *)
Lemma unit_loop_fixpoint iters F A F' A' :
  unit_loop iters F A = LoopDone F' A' →
  simplify_with_unit_clauses F' A' = Some (F', false, A') ∧
  ∀ cl, cl ∈ F' → 2 ≤ length cl ∧ ∀ l, l ∈ cl → A' !! l.1 = None.
Proof.
  revert F A. induction iters as [|iters IH]; intros F A; simpl; [done|].
  destruct (simplify_with_unit_clauses F A) as [[[F1 [|]] A1]|] eqn:Hs; [by apply IH| |done].
  intros [= <- <-]. pose proof Hs as (-> & _ & Hfix)%simplify_no_unit_fixpoint.
  split; [done|]. intros cl Hcl. apply simplify_pass in Hs.
  destruct (pass_output _ _ _ _ _ Hs cl Hcl) as (? & ? & _). done.
Qed.

End solver_extras.

Section store_extras.
Context (D X : gset loc).

(** The list a pass returns is one it has created. *)
Lemma framed_simplify_fresh formula assignments :
  writable D X assignments →
  framed D X (Heap.simplify_with_unit_clauses formula assignments)
    (λ r, ∀ sf u, r = Some (sf, u) → sf ∉ D).
Proof.
  intros Ha. unfold Heap.simplify_with_unit_clauses.
  eapply framed_bind; [apply framed_alloc|]. intros sf Hsf. simpl in Hsf.
  eapply framed_bind; [apply framed_read_list|]. intros items _.
  eapply framed_bind; [apply framed_simplify_items; [done|by right]|]. intros r _.
  apply framed_ret. intros sf' u. destruct r; simpl; [|done]. by intros [= <- _].
Qed.

End store_extras.

(** * Further properties *)

(** X1. A dictionary that the search returns satisfies every clause of the
    formula, and still does once the variables it leaves out are read as
    [False]. *)
Theorem returned_assignment_satisfies_formula F A :
  satisfying_assignment F = Returned (Some A) →
  satisfies A F ∧ total_satisfies (completion A) F.
Proof.
  intros Hres%satisfying_assignment_sound. split; [done|].
  by apply satisfies_completion.
Qed.

Lemma returned_assignment_satisfies_formula_witness :
  satisfies {["a" := true; "f" := true]} doctest_cnf ∧
  total_satisfies (completion {["a" := true; "f" := true]}) doctest_cnf.
Proof.
  apply (returned_assignment_satisfies_formula doctest_cnf).
  vm_compute; reflexivity.
Defined.



(** X4. An empty clause anywhere after a non-empty first clause makes the
    search return [None]. *)
Theorem empty_clause_after_first_gives_None cl rest :
  cl ≠ [] → [] ∈ rest → satisfying_assignment (cl :: rest) = Returned None.
Proof.
  intros Hcl Hin.
  destruct (satisfying_assignment (cl :: rest)) as [[A|]| |] eqn:Hres; [|done|..].
  - apply satisfying_assignment_sound in Hres.
    destruct (Hres []) as (v & b & Hvb & _); [by apply list_elem_of_further|].
    by apply elem_of_nil in Hvb.
  - apply satisfying_assignment_raised in Hres as [_ [rest' ?]]. congruence.
  - by apply satisfying_assignment_not_OutOfFuel in Hres.
Qed.

Lemma empty_clause_after_first_gives_None_witness :
  satisfying_assignment [[("a", true); ("b", true)]; [("c", false)]; []]
  = Returned None.
Proof.
  apply empty_clause_after_first_gives_None; [done|].
  apply list_elem_of_further, list_elem_of_here.
Defined.

(** X5. The returned dictionary binds the variable of the first literal.
    It gives it the polarity written there, unless no satisfying assignment
    does: the opposite value is returned only after the written one has
    been refuted. *)
Theorem first_literal_polarity_is_preferred v b cl rest A :
  satisfying_assignment (((v, b) :: cl) :: rest) = Returned (Some A) →
  A !! v = Some b ∨
  (A !! v = Some (negb b) ∧
   ∀ σ : Var → bool, σ v = b → ¬ total_satisfies σ (((v, b) :: cl) :: rest)).
Proof.
  rewrite satisfying_assignment_trials. cbv zeta.
  destruct (try_assignment _ _ _ {[v := b]}) as [[A1|]| |] eqn:Hfirst.
  - intros [= <-]. left. by eapply try_assignment_keeps_seed.
  - destruct (try_assignment _ _ _ {[v := negb b]}) as [[A2|]| |] eqn:Hsecond;
      [|done..].
    intros [= <-]. right. split; [by eapply try_assignment_keeps_seed|].
    intros σ Hσ. by eapply try_assignment_None_no_model.
  - done.
  - done.
Qed.

Lemma first_literal_polarity_is_preferred_witness :
  ({["a" := false; "b" := true]} : assignment) !! "a" = Some true ∨
  (({["a" := false; "b" := true]} : assignment) !! "a" = Some (negb true) ∧
   ∀ σ : Var → bool, σ "a" = true →
     ¬ total_satisfies σ [[("a", true); ("b", true)]; [("a", false)]]).
Proof.
  apply (first_literal_polarity_is_preferred "a" true [("b", true)] [[("a", false)]]).
  vm_compute; reflexivity.
Defined.

(** X6. A pass never removes or changes a binding of the dictionary; the
    keys it adds are variables of the formula; and it reports a unit clause
    exactly when it has added a binding. *)
Theorem simplify_only_extends_assignments F A F' u A' :
  simplify_with_unit_clauses F A = Some (F', u, A') →
  A ⊆ A' ∧ dom A' ⊆ dom A ∪ formula_vars F ∧ (u = true ↔ A' ≠ A).
Proof.
  intros Hs%simplify_pass. split_and!.
  - by eapply pass_subseteq.
  - by eapply pass_dom.
  - destruct u.
    + split; [|done]. intros _ ->.
      destruct (pass_unit_progress _ _ _ _ Hs) as (v & _ & Hnone & [b Hsome]).
      congruence.
    + split; [done|]. intros Hne. by apply pass_no_unit in Hs.
Qed.

Lemma simplify_only_extends_assignments_witness :
  ({["a" := true]} : assignment) ⊆ {["a" := true; "f" := true]} ∧
  dom ({["a" := true; "f" := true]} : assignment)
    ⊆ dom ({["a" := true]} : assignment) ∪ formula_vars doctest_cnf ∧
  (true = true ↔ ({["a" := true; "f" := true]} : assignment) ≠ {["a" := true]}).
Proof.
  apply (simplify_only_extends_assignments doctest_cnf {["a" := true]} []).
  vm_compute; reflexivity.
Defined.

(** X7. Every clause of the output of a pass has at least two literals,
    mentions only variables that had no binding when the pass started, and
    is an input clause with some literals left out, the others in their
    order. *)
Theorem simplify_output_clauses F A F' u A' :
  simplify_with_unit_clauses F A = Some (F', u, A') →
  ∀ cl', cl' ∈ F' →
    2 ≤ length cl' ∧ (∀ l, l ∈ cl' → A !! l.1 = None) ∧
    ∃ cl, cl ∈ F ∧ cl' `sublist_of` cl.
Proof.
  intros Hs%simplify_pass cl' Hcl'.
  destruct (pass_output _ _ _ _ _ Hs cl' Hcl') as (Hlen & Hun & _).
  split_and!; [done..|]. by eapply pass_output_sublist.
Qed.

Lemma simplify_output_clauses_witness :
  2 ≤ length [("b", true); ("c", true)] ∧
  (∀ l : Literal, l ∈ [("b", true); ("c", true)] →
     ({["a" := false]} : assignment) !! l.1 = None) ∧
  ∃ cl, cl ∈ doctest_cnf ∧ [("b", true); ("c", true)] `sublist_of` cl.
Proof.
  apply (simplify_output_clauses doctest_cnf {["a" := false]}
           [[("b", true); ("c", true)]; [("d", false); ("e", true); ("g", true)]]
           false {["a" := false]}).
  - vm_compute; reflexivity.
  - apply list_elem_of_here.
Defined.

(** X8. A pass keeps the models: a total assignment that extends the
    dictionary satisfies the input exactly when the pass succeeds and the
    assignment extends the new dictionary and satisfies the output. *)
Theorem simplify_preserves_models σ F A :
  agrees σ A →
  (total_satisfies σ F ↔
   ∃ F' u A', simplify_with_unit_clauses F A = Some (F', u, A') ∧
              agrees σ A' ∧ total_satisfies σ F').
Proof.
  intros Hag. split.
  - intros Hsat. destruct (propagate_spec_model σ F A Hag Hsat) as [[[F' u] A'] Hs].
    rewrite <- simplify_propagate_spec in Hs. exists F', u, A'. split; [done|].
    apply simplify_pass in Hs. by eapply pass_complete.
  - intros (F' & u & A' & Hs%simplify_pass & Hag' & Hsat') cl Hcl.
    destruct (pass_sound _ _ _ _ _ Hs cl Hcl) as [(v & b & Hvb & Hv)|(cl' & Hcl' & Hsub)].
    + exists v, b. split; [done|]. by apply Hag'.
    + destruct (Hsat' cl' Hcl') as (v & b & Hvb & Hσ). exists v, b. auto.
Qed.

Lemma simplify_preserves_models_witness :
  total_satisfies (λ _, true) [[("a", false); ("b", true)]; [("c", true); ("d", true)]] ↔
  ∃ F' u A',
    simplify_with_unit_clauses
      [[("a", false); ("b", true)]; [("c", true); ("d", true)]] {["a" := true]}
    = Some (F', u, A') ∧ agrees (λ _, true) A' ∧ total_satisfies (λ _, true) F'.
Proof.
  apply (simplify_preserves_models (λ _, true)).
  intros v b [<- <-]%lookup_singleton_Some. reflexivity.
Defined.

(** X9. When a pass returns [None], no total assignment that extends the
    dictionary satisfies the formula. *)
Theorem simplify_None_refutes F A :
  simplify_with_unit_clauses F A = None →
  ∀ σ : Var → bool, agrees σ A → ¬ total_satisfies σ F.
Proof.
  intros Hs σ Hag Hsat. rewrite simplify_propagate_spec in Hs.
  destruct (propagate_spec_model σ F A Hag Hsat) as [? ?]. congruence.
Qed.

Lemma simplify_None_refutes_witness :
  simplify_with_unit_clauses doctest_cnf {["a" := true; "f" := false]} = None ∧
  ∀ σ : Var → bool, agrees σ {["a" := true; "f" := false]} →
                    ¬ total_satisfies σ doctest_cnf.
Proof.
  split; [vm_compute; reflexivity|].
  apply (simplify_None_refutes doctest_cnf {["a" := true; "f" := false]}).
  vm_compute; reflexivity.
Defined.

(** X10. The propagation loop of [try_assignment] ends on a fixpoint: one
    more pass returns the same clause list, no unit clause and the same
    dictionary; every remaining clause has at least two literals, all on
    variables without a binding. *)
Theorem propagation_loop_ends_on_fixpoint iters F A F' A' :
  unit_loop iters F A = LoopDone F' A' →
  simplify_with_unit_clauses F' A' = Some (F', false, A') ∧
  A ⊆ A' ∧
  ∀ cl, cl ∈ F' → 2 ≤ length cl ∧ ∀ l, l ∈ cl → A' !! l.1 = None.
Proof.
  intros Hloop. destruct (unit_loop_fixpoint _ _ _ _ _ Hloop) as [Hfix Hcl].
  apply unit_loop_post in Hloop as [Hsub _ _ _ _]. done.
Qed.

Lemma propagation_loop_ends_on_fixpoint_witness :
  simplify_with_unit_clauses [[("c", true); ("d", true)]] {["a" := true; "b" := true]}
  = Some ([[("c", true); ("d", true)]], false, {["a" := true; "b" := true]}) ∧
  ({["a" := true]} : assignment) ⊆ {["a" := true; "b" := true]} ∧
  ∀ cl : Clause, cl ∈ [[("c", true); ("d", true)]] →
    2 ≤ length cl ∧
    ∀ l : Literal, l ∈ cl → ({["a" := true; "b" := true]} : assignment) !! l.1 = None.
Proof.
  apply (propagation_loop_ends_on_fixpoint 3
           [[("a", false); ("b", true)]; [("c", true); ("d", true)]] {["a" := true]}).
  vm_compute; reflexivity.
Defined.

(** X11. What the calls return are objects they have created: the
    dictionary returned by [satisfying_assignment] and the list returned by
    [simplify_with_unit_clauses] are at addresses that were not in use
    before the call. *)
Theorem results_are_new_objects :
  (∀ depth iters formula (h : store) a h',
     Heap.satisfying_assignment depth iters formula h = (Returned (Some a), h') →
     h !! a = None) ∧
  (∀ formula assignments (h : store) sf u h',
     Heap.simplify_with_unit_clauses formula assignments h
     = (Returned (Some (sf, u)), h') →
     h !! sf = None).
Proof.
  split.
  - intros depth iters formula h a h' Hrun.
    destruct (framed_satisfying_assignment (dom h) ∅ depth iters formula
                h _ h' ltac:(done) Hrun) as (_ & _ & Hfresh).
    apply not_elem_of_dom. by apply (Hfresh (Some a)).
  - intros formula assignments h sf u h' Hrun.
    destruct (framed_simplify_fresh (dom h) {[assignments]} formula assignments
                ltac:(left; set_solver) h _ h' ltac:(done) Hrun) as (_ & _ & Hfresh).
    apply not_elem_of_dom. by eapply Hfresh.
Qed.

Lemma results_are_new_objects_witness : doctest_store !! 6 = None.
Proof.
  destruct results_are_new_objects as [_ H].
  apply (H 0 5 doctest_store 6 true
           (Heap.simplify_with_unit_clauses 0 5 doctest_store).2).
  vm_compute; reflexivity.
Defined.

(** X12. Run on a store that holds the formula [F], the search returns
    what the search on [F] as a value returns: a reference to a dictionary
    with the same bindings, [None], or the same exception; and the store
    still holds [F] afterwards. *)
Theorem store_run_agrees_with_value_run depth iters (h : store) f F r h' :
  is_formula h f F →
  Heap.satisfying_assignment depth iters f h = (r, h') →
  sim_outcome (satisfying_assignment_fuel depth iters F) r h' ∧
  is_formula h' f F.
Proof.
  intros HF Hrun. split; [by eapply satisfying_assignment_sim|].
  destruct (framed_satisfying_assignment (dom h) ∅ depth iters f
              h r h' ltac:(done) Hrun) as (_ & Hsame & _).
  eapply is_formula_preserved; [done|].
  eapply (lists_preserved_framed _ _ ∅); [done|]. set_solver.
Qed.

Lemma store_run_agrees_with_value_run_witness :
  sim_outcome (satisfying_assignment_fuel 9 9 doctest_cnf)
    (Heap.satisfying_assignment 9 9 0 doctest_store).1
    (Heap.satisfying_assignment 9 9 0 doctest_store).2 ∧
  is_formula (Heap.satisfying_assignment 9 9 0 doctest_store).2 0 doctest_cnf.
Proof.
  apply (store_run_agrees_with_value_run 9 9 doctest_store 0 doctest_cnf).
  - exists [1; 2; 3; 4]. split; [reflexivity|].
    repeat constructor.
  - apply surjective_pairing.
Defined.

(** * Properties of the encoder *)

(** X13. [get_combos elts length prev] lists exactly the lists [prev ++ c]
    where [c] picks elements of [elts] in their order and brings the total
    length to [length]. *)
Theorem get_combos_enumerates_sublists {A} (elts prev c : list A) (k : Z) :
  c ∈ get_combos elts k prev ↔
  ∃ c', c = prev ++ c' ∧ c' `sublist_of` elts ∧
        (Z.of_nat (length prev + length c') = k)%Z.
Proof. apply elem_of_get_combos. Qed.

(** X14. When the elements are distinct, no combination is listed twice. *)
Theorem get_combos_NoDup {A} (elts prev : list A) (k : Z) :
  NoDup elts → NoDup (get_combos elts k prev).
Proof.
  intros Hnd. rewrite get_combos_combos_spec. unfold combos_spec.
  case_decide; [|constructor].
  apply NoDup_fmap_2; [|by apply NoDup_sublists_of_length].
  intros c1 c2. apply app_inv_head.
Qed.

Lemma get_combos_NoDup_witness :
  NoDup (get_combos ["x"; "y"; "z"] 2 []).
Proof.
  apply get_combos_NoDup. vm_compute. repeat constructor; set_solver.
Defined.

(** X15. Edge lengths: when [prev] already has the length asked for, it is
    the one combination, whatever [elts]; when it is longer (so also for
    every negative length), or when [elts] has too few elements, there is
    none. *)
Theorem get_combos_edge_lengths {A} (elts prev : list A) (k : Z) :
  (Z.of_nat (length prev) = k → get_combos elts k prev = [prev]) ∧
  ((k < Z.of_nat (length prev))%Z → get_combos elts k prev = []) ∧
  ((Z.of_nat (length prev + length elts) < k)%Z → get_combos elts k prev = []).
Proof.
  rewrite get_combos_combos_spec. split_and!.
  - apply combos_spec_exact.
  - intros Hlt. unfold combos_spec. by rewrite decide_False by lia.
  - intros Hlt. unfold combos_spec. case_decide; [|done].
    apply elem_of_nil_inv. intros c (c' & -> & [Hsub Hlen]%elem_of_sublists_of_length)%list_elem_of_fmap.
    apply sublist_length in Hsub. lia.
Qed.

Lemma get_combos_edge_lengths_witness :
  get_combos ["x"; "y"] (-1) [] = [] ∧ get_combos ["x"; "y"] 3 [] = [].
Proof.
  destruct (get_combos_edge_lengths ["x"; "y"] [] (-1)) as (_ & H1 & _).
  destruct (get_combos_edge_lengths ["x"; "y"] [] 3) as (_ & _ & H2).
  split; [apply H1|apply H2]; simpl; lia.
Defined.

(** X24. The number of combinations: for [0 <= k <= len(elts)],
    [get_combos elts k] returns [n! / (k! (n-k)!)] lists, where [n] is the
    length of [elts]. *)
Theorem get_combos_count {A} (elts : list A) (k : nat) :
  k ≤ length elts →
  length (get_combos elts (Z.of_nat k) []) * fact k * fact (length elts - k)
  = fact (length elts).
Proof.
  intros Hk. rewrite get_combos_combos_spec. unfold combos_spec.
  rewrite decide_True by (simpl; lia). rewrite length_fmap.
  replace (Z.to_nat (Z.of_nat k - Z.of_nat (length (@nil A)))) with k
    by (simpl; lia).
  by apply length_sublists_of_length.
Qed.

Lemma get_combos_count_witness :
  length (get_combos ["a"; "b"; "c"; "d"] 2 []) * fact 2 * fact 2 = fact 4.
Proof.
  apply (get_combos_count ["a"; "b"; "c"; "d"] 2). simpl; lia.
Defined.

(** X16. Variable names: when student names have no underscore, the
    student and the session can be read back from the name, so distinct
    pairs get distinct variables. *)
Theorem var_name_injective student1 session1 student2 session2 :
  no_underscore student1 = true → no_underscore student2 = true →
  var_name student1 session1 = var_name student2 session2 →
  student1 = student2 ∧ session1 = session2.
Proof.
  intros H1 H2 Heq.
  pose proof (split_var_name student1 session1 H1) as Hs1.
  rewrite Heq, (split_var_name student2 session2 H2) in Hs1. by simplify_eq.
Qed.

Lemma var_name_injective_witness :
  "al" = "al" ∧ "x" = "x".
Proof.
  apply (var_name_injective "al" "x" "al" "x"); reflexivity.
Defined.

(** X17. The clauses of [get_max_one_session] hold exactly when no
    student sits in two different sessions (sessions are the keys of
    [room_capacities], which are distinct). *)
Theorem get_max_one_session_meaning σ sp rc :
  NoDup rc.*1 →
  (total_satisfies σ (get_max_one_session sp rc) ↔
   ∀ student session1 session2,
     student ∈ sp.*1 → session1 ∈ rc.*1 → session2 ∈ rc.*1 →
     session1 ≠ session2 →
     ¬ (schedule_of σ student session1 = true ∧
        schedule_of σ student session2 = true)).
Proof.
  intros Hnd. split.
  - apply satisfies_get_max_one_session_1.
  - by apply satisfies_get_max_one_session_2.
Qed.

Lemma get_max_one_session_meaning_witness :
  NoDup ([("x", 1%Z); ("y", 1%Z)].*1) ∧
  total_satisfies (λ _, false)
    (get_max_one_session [("al", ["x"])] [("x", 1%Z); ("y", 1%Z)]).
Proof.
  assert (NoDup ([("x", 1%Z); ("y", 1%Z)].*1)) as Hnd
    by (vm_compute; repeat constructor; set_solver).
  split; [exact Hnd|].
  apply (get_max_one_session_meaning (λ _, false) [("al", ["x"])]
           [("x", 1%Z); ("y", 1%Z)] Hnd).
  intros student s1 s2 _ _ _ _ [H _]. discriminate H.
Defined.

(** X18. The clauses of [get_oversubscribed] hold exactly when every
    session with a capacity of at least -1 holds no more students than its
    capacity.  A session with a capacity below -1 is left without any
    clause. *)
Theorem get_oversubscribed_meaning σ sp rc :
  total_satisfies σ (get_oversubscribed sp rc) ↔
  ∀ session capacity, (session, capacity) ∈ rc → (-1 ≤ capacity)%Z →
    (Z.of_nat (occupancy (schedule_of σ) sp.*1 session) ≤ capacity)%Z.
Proof. apply satisfies_get_oversubscribed. Qed.

(** X19. A total assignment satisfies the formula of
    [boolify_scheduling_problem] exactly when the schedule it describes is
    valid: every student sits in a session they accept, no student sits in
    two sessions, and no session is over its capacity. *)
Theorem boolify_scheduling_problem_meaning σ sp rc :
  NoDup rc.*1 →
  (∀ session capacity, (session, capacity) ∈ rc → (-1 ≤ capacity)%Z) →
  (total_satisfies σ (boolify_scheduling_problem sp rc) ↔
   valid_schedule sp rc (schedule_of σ)).
Proof.
  intros Hnd Hcap. split.
  - by apply boolify_valid_schedule.
  - by apply valid_schedule_boolify.
Qed.

Lemma boolify_scheduling_problem_meaning_witness :
  total_satisfies (completion {["al_x" := true; "bo_y" := true]})
    (boolify_scheduling_problem [("al", ["x"; "y"]); ("bo", ["y"])]
       [("x", 1%Z); ("y", 1%Z)]) ↔
  valid_schedule [("al", ["x"; "y"]); ("bo", ["y"])] [("x", 1%Z); ("y", 1%Z)]
    (schedule_of (completion {["al_x" := true; "bo_y" := true]})).
Proof.
  apply boolify_scheduling_problem_meaning.
  - vm_compute. repeat constructor; set_solver.
  - intros session capacity Hin.
    repeat (apply elem_of_cons in Hin as [[= -> ->]|Hin]; [lia|]).
    by apply elem_of_nil in Hin.
Defined.

(** X20. End to end: the dictionary that the solver returns for the
    formula of a scheduling problem, read with missing variables as
    [False], is a valid schedule. *)
Theorem solver_schedule_is_valid sp rc A :
  (∀ session capacity, (session, capacity) ∈ rc → (-1 ≤ capacity)%Z) →
  satisfying_assignment (boolify_scheduling_problem sp rc) = Returned (Some A) →
  valid_schedule sp rc (schedule_of (completion A)).
Proof.
  intros Hcap Hres%satisfying_assignment_sound.
  apply boolify_valid_schedule; [done|]. by apply satisfies_completion.
Qed.

Lemma solver_schedule_is_valid_witness :
  valid_schedule [("al", ["x"; "y"]); ("bo", ["y"])] [("x", 1%Z); ("y", 1%Z)]
    (schedule_of (completion
       {["al_x" := true; "al_y" := false; "bo_x" := false; "bo_y" := true]})).
Proof.
  apply solver_schedule_is_valid.
  - intros session capacity Hin.
    repeat (apply elem_of_cons in Hin as [[= -> ->]|Hin]; [lia|]).
    by apply elem_of_nil in Hin.
  - vm_compute; reflexivity.
Defined.


(** X22. When the first student accepts no session, the formula starts
    with an empty clause and the solver raises [IndexError] on it. *)
Theorem first_student_without_session_raises student sp rc :
  satisfying_assignment (boolify_scheduling_problem ((student, []) :: sp) rc)
  = Raised IndexError.
Proof.
  unfold boolify_scheduling_problem. rewrite get_preferences_fmap. reflexivity.
Qed.

(** X23. When the first student accepts some session and a later student
    accepts none, the solver returns [None]. *)
Theorem later_student_without_session_gives_None student sessions student' sp rc :
  sessions ≠ [] → (student', []) ∈ sp →
  satisfying_assignment
    (boolify_scheduling_problem ((student, sessions) :: sp) rc)
  = Returned None.
Proof.
  intros Hne Hin. unfold boolify_scheduling_problem.
  rewrite get_preferences_fmap, fmap_cons, <- !app_comm_cons.
  apply satisfying_assignment_empty_clause_later.
  - unfold preference_clause. simpl. by destruct sessions.
  - apply elem_of_app. left. apply elem_of_app. left.
    apply list_elem_of_fmap. by exists (student', []).
Qed.


Lemma later_student_without_session_gives_None_witness :
  satisfying_assignment
    (boolify_scheduling_problem [("al", ["x"]); ("bo", [])] [("x", 1%Z)])
  = Returned None.
Proof.
  apply (later_student_without_session_gives_None "al" ["x"] "bo").
  - discriminate.
  - apply list_elem_of_here.
Defined.
